(** * Xpedite: the wait-free buffer pool

    A shallow embedding of [xpedite::common::WaitFreeBufferPool]
    (include/xpedite/common/WaitFreeBufferPool.H) and the properties of its
    producer, consumer, attach and detach operations.

    Conventions of the embedding.
    - [uint64_t] and [unsigned] values are integers of [Z] kept in range, every
      arithmetic operation of the source written with its wrap-around
      ([U64.add], [U64.incr], [U32.sub], ...).
    - The template parameters [T], [bufferSize] and [poolSize] are section
      variables; [NDEBUG] says whether [assert] is compiled out.
    - A [T*] into [_pool->data()] is the offset of the element it points to;
      [nullptr] is [None].
    - The two atomics are fields of the record; an operation is a function from
      the pool to the pool and the value it returns.  Calls are taken one
      after the other, producer and consumer not overlapping.  The exception
      is the loop of [attachReader], which has the producer beside it by
      design: there the values that the relaxed loads of [_writeIndex] return
      are given from outside and nothing is assumed of them, so every
      behaviour the memory model allows is a run of the model. *)

From Stdlib Require Import ZArith List Bool Lia.
Import ListNotations.
Local Open Scope Z_scope.

(** ** Machine integers *)

Module U64.

Definition modulus : Z := 2 ^ 64.

(** [std::numeric_limits<uint64_t>::max()] *)
Definition max : Z := 2 ^ 64 - 1.

Definition wrap (z : Z) : Z := z mod modulus.

Definition add (a b : Z) : Z := wrap (a + b).

Definition sub (a b : Z) : Z := wrap (a - b).

Definition mul (a b : Z) : Z := wrap (a * b).

(** [++x] *)
Definition incr (a : Z) : Z := add a 1.

Definition in_range (z : Z) : Prop := 0 <= z <= max.

End U64.

Module U32.

Definition modulus : Z := 2 ^ 32.

Definition max : Z := 2 ^ 32 - 1.

Definition wrap (z : Z) : Z := z mod modulus.

Definition sub (a b : Z) : Z := wrap (a - b).

Definition mul (a b : Z) : Z := wrap (a * b).

Definition in_range (z : Z) : Prop := 0 <= z <= max.

End U32.

(** ** [isPoolSizeValid]

    [poolSize_ > 1 && (poolSize_ & (poolSize_ - 1)) == 0], on [unsigned]. *)

Definition isPoolSizeValid (poolSize_ : Z) : bool :=
  (1 <? poolSize_) && (Z.land poolSize_ (U32.sub poolSize_ 1) =? 0).

(** ** Results of code that contains an [assert] *)

Inductive outcome (A : Type) : Type :=
| Ret (a : A)
| Aborted.

Arguments Ret {A} a.
Arguments Aborted {A}.

Definition bind {A B : Type} (m : outcome A) (k : A -> outcome B) : outcome B :=
  match m with
  | Ret a => k a
  | Aborted => Aborted
  end.

Notation "x <- m ;; k" := (bind m (fun x => k))
  (at level 61, m at next level, right associativity).

(** The [n] consecutive indices from [a] on. *)
Definition index_range (a : Z) (n : nat) : list Z :=
  map (fun j => a + Z.of_nat j) (seq 0 n).

(** A pointer to an element of the pool's storage. *)
Definition ptr : Type := Z.

Section Pool.

Context {T : Type}.

(** The value of a value-initialised [T] ([_data {}]). *)
Variable T0 : T.

Variables bufferSize poolSize : Z.

Variable NDEBUG : bool.

(** The data members: [_writeIndex], [_readIndex], the array behind [_pool]
    and [_overflowCount]; the fields carry the names of the accessors. *)
Record WaitFreeBufferPool : Type := mkPool {
  writeIndex : Z;
  readIndex : Z;
  pool_data : list T;
  overflowCount : Z
}.

Definition store_writeIndex (st : WaitFreeBufferPool) (v : Z) : WaitFreeBufferPool :=
  mkPool v (readIndex st) (pool_data st) (overflowCount st).

Definition store_readIndex (st : WaitFreeBufferPool) (v : Z) : WaitFreeBufferPool :=
  mkPool (writeIndex st) v (pool_data st) (overflowCount st).

Definition store_overflowCount (st : WaitFreeBufferPool) (v : Z) : WaitFreeBufferPool :=
  mkPool (writeIndex st) (readIndex st) (pool_data st) v.

Definition store_data (st : WaitFreeBufferPool) (d : list T) : WaitFreeBufferPool :=
  mkPool (writeIndex st) (readIndex st) d (overflowCount st).

(** [poolSizeMask = poolSize - 1], computed on [unsigned]. *)
Definition poolSizeMask : Z := U32.sub poolSize 1.

(** [readIndexMax = std::numeric_limits<uint64_t>::max() - poolSize] *)
Definition readIndexMax : Z := U64.sub U64.max poolSize.

(** [Buffer<T, bufferSize * poolSize>]: the product is taken on [unsigned]. *)
Definition storage_size : Z := U32.mul bufferSize poolSize.

(** The constructor (the allocation behind [new Pool {}] succeeding). *)
Definition new_pool : WaitFreeBufferPool :=
  mkPool 0 readIndexMax (repeat T0 (Z.to_nat storage_size)) 0.

(** [bufferAt]: [&_pool->data()[(index_ & poolSizeMask) * bufferSize]] *)
Definition bufferAt (index_ : Z) : ptr :=
  U64.mul (Z.land index_ poolSizeMask) bufferSize.

(** The producer's admission test, [windex < rindex + poolSize]. *)
Definition admits (st : WaitFreeBufferPool) : bool :=
  writeIndex st <? U64.add (readIndex st) poolSize.

Definition nextWritableBuffer (st : WaitFreeBufferPool) : WaitFreeBufferPool * ptr :=
  let windex := writeIndex st in
  let rindex := readIndex st in
  if windex <? U64.add rindex poolSize then
    let windex := U64.incr windex in
    (store_writeIndex st windex, bufferAt windex)
  else
    (store_overflowCount st (U64.incr (overflowCount st)), bufferAt windex).

(** [assert(c)]: nothing under [NDEBUG], else the program aborts when [c] is
    false. *)
Definition cassert (c : bool) : outcome unit :=
  if NDEBUG || c then Ret tt else Aborted.

(** The tail of [nextReadableBuffer], from the acquire load of [_writeIndex]. *)
Definition readable_from (st : WaitFreeBufferPool) (rindex : Z) : option ptr :=
  let windex := writeIndex st in
  if windex >? U64.add rindex 1 then Some (bufferAt (U64.add rindex 1)) else None.

Definition nextReadableBuffer (st : WaitFreeBufferPool) (curReadBuf_ : option ptr)
  : outcome (WaitFreeBufferPool * option ptr) :=
  let rindex := readIndex st in
  match curReadBuf_ with
  | Some p =>
      let rindex := U64.incr rindex in
      _ <- cassert (p =? bufferAt rindex) ;;
      let st := store_readIndex st rindex in
      Ret (st, readable_from st rindex)
  | None => Ret (st, readable_from st rindex)
  end.

(** [peekWithDataRace]: the slot at the current [_writeIndex]. *)
Definition peekWithDataRace (st : WaitFreeBufferPool) : ptr :=
  let windex := writeIndex st in
  bufferAt windex.

(** The assertion of [nextReadableBuffer] holds, or is compiled out. *)
Definition assertion_passes (st : WaitFreeBufferPool) (curReadBuf_ : option ptr) : Prop :=
  NDEBUG = true \/
  forall p, curReadBuf_ = Some p -> p = bufferAt (U64.incr (readIndex st)).

Definition detachReader (st : WaitFreeBufferPool) : WaitFreeBufferPool * (Z * Z) :=
  let rindex := readIndex st in
  let windex := writeIndex st in
  (store_readIndex st readIndexMax, (rindex, windex)).

(** [k] calls of the producer, one after the other. *)
Fixpoint producer_runs (k : nat) (st : WaitFreeBufferPool) : WaitFreeBufferPool :=
  match k with
  | O => st
  | S k' => producer_runs k' (fst (nextWritableBuffer st))
  end.

(** [rindex = windex ? windex - 1 : 0] *)
Definition propose (windex : Z) : Z :=
  if windex =? 0 then 0 else U64.sub windex 1.

(** The [do ... while] of [attachReader], entered with the [windex] of the
    first load.  The producer runs beside it and is not modelled: [loads]
    gives the values that the reloads of [_writeIndex] return, one for each
    iteration, whatever the producer did and the memory order let through.
    The loop writes [_readIndex] only.  [None]: [loads] ended with the loop
    still retrying. *)
Fixpoint attach_loop (loads : list Z) (st : WaitFreeBufferPool) (windex : Z)
  : option (WaitFreeBufferPool * (Z * Z)) :=
  match loads with
  | [] => None
  | w :: loads' =>
      let rindex := propose windex in
      let st := store_readIndex st rindex in
      let windex := w in
      if windex >? U64.add rindex poolSize then attach_loop loads' st windex
      else Some (st, (rindex, windex))
  end.

(** The loads of [_writeIndex] that the same run performs: the first load,
    then the reload of each iteration up to the one that leaves the loop. *)
Fixpoint attach_loads (loads : list Z) (windex : Z) : list Z :=
  windex ::
  match loads with
  | [] => []
  | w :: loads' =>
      let rindex := propose windex in
      let windex := w in
      if windex >? U64.add rindex poolSize then attach_loads loads' windex
      else [windex]
  end.

(** [attachReader] where its loads of [_writeIndex] return [loads], the
    first load included. *)
Definition attachReader_with (loads : list Z) (st : WaitFreeBufferPool)
  : option (WaitFreeBufferPool * (Z * Z)) :=
  match loads with
  | [] => None
  | windex :: loads' => attach_loop loads' st windex
  end.

(** [attachReader] with no producer running beside it, for at most [fuel]
    iterations of the loop: every load returns the [_writeIndex] of the
    pool. *)
Definition attachReader (fuel : nat) (st : WaitFreeBufferPool)
  : option (WaitFreeBufferPool * (Z * Z)) :=
  attachReader_with (repeat (writeIndex st) (S fuel)) st.

(** ** Slots of the storage *)

(** The [bufferSize] elements a returned pointer gives access to. *)
Definition slot_read (p : ptr) (d : list T) : list T :=
  firstn (Z.to_nat bufferSize) (skipn (Z.to_nat p) d).

(** The storage after the elements [xs] are written from [p] on. *)
Definition slot_write (p : ptr) (xs : list T) (d : list T) : list T :=
  firstn (Z.to_nat p) d ++ xs ++ skipn (Z.to_nat p + length xs) d.

(** A pointer whose [bufferSize] elements lie within the array behind
    [_pool]. *)
Definition in_storage (p : ptr) : Prop :=
  0 <= p /\ p + bufferSize <= storage_size.

(** The storage has the size of the array. *)
Definition storage_ok (st : WaitFreeBufferPool) : Prop :=
  Z.of_nat (length (pool_data st)) = storage_size.

(** The contents of the slot of the logical index [i]. *)
Definition slot_at (st : WaitFreeBufferPool) (i : Z) : list T :=
  slot_read (bufferAt i) (pool_data st).

(** The producer fills the slot it was given. *)
Definition fill (st : WaitFreeBufferPool) (p : ptr) (xs : list T) : WaitFreeBufferPool :=
  store_data st (slot_write p xs (pool_data st)).

(** [nextWritableBuffer], then the record [xs] written into the slot
    returned. *)
Definition write_next (xs : list T) (st : WaitFreeBufferPool) : WaitFreeBufferPool * ptr :=
  let (st', p) := nextWritableBuffer st in (fill st' p xs, p).

(** ** Sequential clients

    One producer and one consumer whose calls do not overlap.  The consumer
    is detached ([None]) or attached, and then remembers what its last
    [nextReadableBuffer] returned ([Some cur]; [nullptr] right after
    [attachReader]): that is the argument of its next call. *)

Inductive call : Type :=
| AttachReader
| DetachReader
| NextWritableBuffer
| NextReadableBuffer.

Record client : Type := mkClient {
  pool_of : WaitFreeBufferPool;
  consumer : option (option ptr)
}.

Definition exec (fuel : nat) (s : client) (c : call) : option client :=
  match c with
  | NextWritableBuffer =>
      Some (mkClient (fst (nextWritableBuffer (pool_of s))) (consumer s))
  | AttachReader =>
      match attachReader fuel (pool_of s) with
      | Some (st, _) => Some (mkClient st (Some None))
      | None => None
      end
  | DetachReader =>
      Some (mkClient (fst (detachReader (pool_of s))) None)
  | NextReadableBuffer =>
      match consumer s with
      | Some cur =>
          match nextReadableBuffer (pool_of s) cur with
          | Ret (st, r) => Some (mkClient st (Some r))
          | Aborted => None
          end
      | None => None
      end
  end.

Fixpoint run (fuel : nat) (s : client) (cs : list call) : option client :=
  match cs with
  | [] => Some s
  | c :: cs' =>
      match exec fuel s c with
      | Some s' => run fuel s' cs'
      | None => None
      end
  end.

Definition fresh : client := mkClient new_pool None.

(** The consumer drains: it calls [nextReadableBuffer] with its last result
    until [nullptr] comes back, and collects the contents of the slots it
    was given.  [None]: an assertion failed or the fuel ran out. *)
Fixpoint drain (fuel : nat) (st : WaitFreeBufferPool) (cur : option ptr)
  : option (WaitFreeBufferPool * list (list T)) :=
  match fuel with
  | O => None
  | S fuel' =>
      match nextReadableBuffer st cur with
      | Aborted => None
      | Ret (st', None) => Some (st', [])
      | Ret (st', Some p) =>
          match drain fuel' st' (Some p) with
          | Some (st'', seen) => Some (st'', slot_read p (pool_data st') :: seen)
          | None => None
          end
      end
  end.

(** The producer writes the records [rs], one slot each; the pointers it
    was given come back in order. *)
Fixpoint write_all (rs : list (list T)) (st : WaitFreeBufferPool)
  : WaitFreeBufferPool * list ptr :=
  match rs with
  | [] => (st, [])
  | xs :: rs' =>
      let (st1, p) := write_next xs st in
      let (st2, ps) := write_all rs' st1 in
      (st2, p :: ps)
  end.

(** Producer and consumer in lockstep: after each record the producer
    writes, the consumer drains.  What the consumer read comes back, one
    list for each round. *)
Fixpoint lockstep (fuel : nat) (rs : list (list T)) (st : WaitFreeBufferPool)
  : option (WaitFreeBufferPool * list (list (list T))) :=
  match rs with
  | [] => Some (st, [])
  | xs :: rs' =>
      match drain fuel (fst (write_next xs st)) None with
      | Some (st1, seen) =>
          match lockstep fuel rs' st1 with
          | Some (st2, rounds) => Some (st2, seen :: rounds)
          | None => None
          end
      | None => None
      end
  end.

(** ** Invariants *)

(** The three counters hold values of [uint64_t]. *)
Definition wf (st : WaitFreeBufferPool) : Prop :=
  U64.in_range (writeIndex st) /\
  U64.in_range (readIndex st) /\
  U64.in_range (overflowCount st).

Definition attached (s : client) : Prop := consumer s <> None.

(** What the specification asks of the counters: [R <= W] while a consumer
    is attached, and [W - R <= N]. *)
Definition counters_inv (s : client) : Prop :=
  (attached s -> readIndex (pool_of s) <= writeIndex (pool_of s)) /\
  writeIndex (pool_of s) - readIndex (pool_of s) <= poolSize.

(** The same with what a sequential client adds to it: a detached pool holds
    the sentinel, and a slot the consumer holds is the one after [R] and
    already published. *)
Definition client_inv (s : client) : Prop :=
  wf (pool_of s) /\
  writeIndex (pool_of s) - readIndex (pool_of s) <= poolSize /\
  match consumer s with
  | None => readIndex (pool_of s) = readIndexMax
  | Some cur =>
      readIndex (pool_of s) <= writeIndex (pool_of s) /\
      readIndex (pool_of s) < U64.max /\
      match cur with
      | None => True
      | Some p =>
          readIndex (pool_of s) + 1 < writeIndex (pool_of s) /\
          p = bufferAt (readIndex (pool_of s) + 1)
      end
  end.

End Pool.

Arguments WaitFreeBufferPool T : clear implicits.
Arguments client T : clear implicits.

(** ** The end-to-end scenarios: [B = 4], [N = 4], records of [uint64_t] *)

Module Scenario.

Definition B : Z := 4.

Definition N : Z := 4.

Definition pool0 : WaitFreeBufferPool Z := new_pool 0 B N.

(** Attach on the fresh pool ([W = 0]). *)
Definition attached0 : option (WaitFreeBufferPool Z * (Z * Z)) :=
  attachReader N 1 pool0.

(** Scenario 3: attach, then five records written without a read. *)
Definition filled (rs : list (list Z)) : option (WaitFreeBufferPool Z * list ptr) :=
  match attached0 with
  | Some (st, _) => Some (write_all B N rs st)
  | None => None
  end.

(** What the consumer reads when it drains after that. *)
Definition drained (ndebug : bool) (rs : list (list Z)) : option (list (list Z)) :=
  match filled rs with
  | Some (st, _) => option_map snd (drain B N ndebug (S (length rs)) st None)
  | None => None
  end.

(** Five records to tell apart. *)
Definition rec_a : list Z := [10; 11; 12; 13].

Definition rec_b : list Z := [20; 21; 22; 23].

Definition rec_c : list Z := [30; 31; 32; 33].

Definition rec_d : list Z := [40; 41; 42; 43].

Definition rec_e : list Z := [50; 51; 52; 53].

(** The pool after three producer calls, no consumer. *)
Definition pool_w3 : WaitFreeBufferPool Z := producer_runs B N 3 pool0.

(** A consumer attached at [W = 0] and four producer calls: the pool is
    full. *)
Definition pool_full : WaitFreeBufferPool Z :=
  producer_runs B N 4 (store_readIndex pool0 0).

(** The full pool with its overflow counter at [2 ^ 64 - 1]. *)
Definition pool_overflow_top : WaitFreeBufferPool Z :=
  store_overflowCount pool_full U64.max.

(** A consumer whose [R] is above the sentinel, [R + N] wrapping to [0]. *)
Definition pool_near_wrap : WaitFreeBufferPool Z :=
  mkPool (2 ^ 64 - 3) (2 ^ 64 - 4) (pool_data pool0) 0.

(** The fresh pool with a consumer attached at [W = 0]. *)
Definition pool_attached : WaitFreeBufferPool Z := store_readIndex pool0 0.

(** The same after the producer wrote four records. *)
Definition pool_abcd : WaitFreeBufferPool Z :=
  fst (write_all B N [rec_a; rec_b; rec_c; rec_d] pool_attached).

(** One producer call, then a consumer attached: [W = 1], [R = 0]. *)
Definition pool_caught_up : WaitFreeBufferPool Z :=
  store_readIndex (producer_runs B N 1 pool0) 0.

(** A sequential client that goes once round the storage: four slots
    written, three read, one more written. *)
Definition once_round : list call :=
  [AttachReader;
   NextWritableBuffer; NextWritableBuffer; NextWritableBuffer; NextWritableBuffer;
   NextReadableBuffer; NextReadableBuffer; NextReadableBuffer; NextReadableBuffer;
   NextWritableBuffer].

(** Where that leaves the client. *)
Definition client_round : client Z :=
  mkClient (mkPool 5 3 (pool_data pool0) 0) (Some None).

End Scenario.

(** * Properties *)

(** ** Arithmetic of the machine integers *)

Lemma wrap64_small (z : Z) : U64.in_range z -> U64.wrap z = z.
Proof.
  unfold U64.in_range, U64.wrap, U64.max, U64.modulus. intros Hz.
  apply Z.mod_small. lia.
Qed.

Lemma wrap64_range (z : Z) : U64.in_range (U64.wrap z).
Proof.
  unfold U64.in_range, U64.wrap, U64.max, U64.modulus.
  pose proof (Z.mod_pos_bound z (2 ^ 64)). lia.
Qed.

Lemma add64_small (a b : Z) : U64.in_range (a + b) -> U64.add a b = a + b.
Proof. apply wrap64_small. Qed.

Lemma add64_carry (a b : Z) :
  U64.max < a + b <= 2 * U64.max -> U64.add a b = a + b - U64.modulus.
Proof.
  unfold U64.add, U64.wrap, U64.max, U64.modulus. intros H.
  symmetry. apply Z.mod_unique with 1; lia.
Qed.

Lemma incr64_small (z : Z) : 0 <= z < U64.max -> U64.incr z = z + 1.
Proof.
  intros Hz. unfold U64.incr. apply add64_small.
  unfold U64.in_range. lia.
Qed.

Lemma incr64_top : U64.incr U64.max = 0.
Proof. reflexivity. Qed.

Lemma incr64_range (z : Z) : U64.in_range (U64.incr z).
Proof. apply wrap64_range. Qed.

Lemma sub32_small (a b : Z) : U32.in_range (a - b) -> U32.sub a b = a - b.
Proof.
  unfold U32.in_range, U32.sub, U32.wrap, U32.max, U32.modulus. intros H.
  apply Z.mod_small. lia.
Qed.

(** ** Pool sizes that [isPoolSizeValid] accepts are powers of two *)

Lemma land_pred_pow2 (p : positive) :
  Z.land (Z.pos p) (Z.pos p - 1) = 0 -> exists k, 0 <= k /\ Z.pos p = 2 ^ k.
Proof.
  induction p as [q IH | q IH | ]; intros H.
  - exfalso.
    assert (Hs : Z.shiftr (Z.land (Z.pos q~1) (Z.pos q~1 - 1)) 1 = Z.pos q).
    { rewrite Z.shiftr_land, !Z.shiftr_div_pow2 by lia.
      replace (Z.pos q~1 / 2 ^ 1) with (Z.pos q)
        by (apply Z.div_unique with 1; lia).
      replace ((Z.pos q~1 - 1) / 2 ^ 1) with (Z.pos q)
        by (apply Z.div_unique with 0; lia).
      apply Z.land_diag. }
    rewrite H in Hs. discriminate Hs.
  - assert (Hs : Z.shiftr (Z.land (Z.pos q~0) (Z.pos q~0 - 1)) 1
                 = Z.land (Z.pos q) (Z.pos q - 1)).
    { rewrite Z.shiftr_land, !Z.shiftr_div_pow2 by lia.
      replace (Z.pos q~0 / 2 ^ 1) with (Z.pos q)
        by (apply Z.div_unique with 0; lia).
      replace ((Z.pos q~0 - 1) / 2 ^ 1) with (Z.pos q - 1)
        by (apply Z.div_unique with 1; lia).
      reflexivity. }
    rewrite H in Hs. symmetry in Hs. destruct (IH Hs) as [k [Hk Hq]].
    exists (k + 1). split; [lia |].
    rewrite Z.pow_add_r by lia. lia.
  - exists 0. split; [lia | reflexivity].
Qed.

Lemma valid_pool_size (n : Z) :
  U32.in_range n -> isPoolSizeValid n = true ->
  exists k, 1 <= k <= 31 /\ n = 2 ^ k.
Proof.
  intros Hn Hv. unfold isPoolSizeValid in Hv.
  apply andb_true_iff in Hv. destruct Hv as [H1 H2].
  apply Z.ltb_lt in H1. apply Z.eqb_eq in H2.
  unfold U32.in_range, U32.max in Hn.
  rewrite sub32_small in H2 by (unfold U32.in_range, U32.max; lia).
  destruct n as [| p | p]; try lia.
  destruct (land_pred_pow2 p H2) as [k [Hk Hp]].
  exists k. split; [| exact Hp].
  assert (k <> 0) by (intros ->; simpl in Hp; lia).
  assert (k < 32).
  { destruct (Z_lt_le_dec k 32) as [Hlt | Hge]; [exact Hlt | exfalso].
    pose proof (Z.pow_le_mono_r 2 32 k ltac:(lia) Hge). lia. }
  lia.
Qed.

(** ** The pool, for valid template parameters *)

Section Facts.

Context {T : Type}.

(** [B] is [bufferSize], [N] is [poolSize]: two values of [unsigned], the
    second one accepted by the [enable_if] of the class. *)
Variables B N : Z.

(** Whether [assert] is compiled out. *)
Variable NDEBUG : bool.

(** The value-initialised element. *)
Variable T0 : T.

Hypothesis B_range : U32.in_range B.

Hypothesis N_range : U32.in_range N.

Hypothesis N_valid : isPoolSizeValid N = true.

Lemma pool_size_pow2 : exists k, 1 <= k <= 31 /\ N = 2 ^ k.
Proof. exact (valid_pool_size N N_range N_valid). Qed.

Lemma pool_size_bounds : 2 <= N <= 2 ^ 31.
Proof.
  destruct pool_size_pow2 as [k [Hk ->]]. split.
  - change 2 with (2 ^ 1) at 1. apply Z.pow_le_mono_r; lia.
  - apply Z.pow_le_mono_r; lia.
Qed.

Lemma poolSizeMask_eq : poolSizeMask N = N - 1.
Proof.
  pose proof pool_size_bounds. unfold poolSizeMask.
  apply sub32_small. unfold U32.in_range, U32.max. lia.
Qed.

Lemma readIndexMax_eq : readIndexMax N = U64.max - N.
Proof.
  pose proof pool_size_bounds. unfold readIndexMax, U64.sub.
  apply wrap64_small. unfold U64.in_range, U64.max. lia.
Qed.

Lemma readIndexMax_add : U64.add (readIndexMax N) N = U64.max.
Proof.
  rewrite readIndexMax_eq. unfold U64.add.
  replace (U64.max - N + N) with U64.max by lia. reflexivity.
Qed.

(** The mask is the remainder: [i & (N - 1) = i mod N]. *)
Lemma land_mask_mod (i : Z) : Z.land i (N - 1) = i mod N.
Proof.
  destruct pool_size_pow2 as [k [Hk ->]].
  replace (2 ^ k - 1) with (Z.ones k) by (rewrite Z.ones_equiv; lia).
  apply Z.land_ones. lia.
Qed.

Lemma bufferAt_land (i : Z) : bufferAt B N i = Z.land i (N - 1) * B.
Proof.
  unfold bufferAt, U64.mul. rewrite poolSizeMask_eq, land_mask_mod.
  pose proof pool_size_bounds as HN.
  pose proof (Z.mod_pos_bound i N ltac:(lia)) as Hm.
  unfold U32.in_range, U32.max in B_range.
  apply wrap64_small. unfold U64.in_range, U64.max. split; [nia |].
  assert (i mod N * B <= 2 ^ 31 * (2 ^ 32 - 1)) by nia. lia.
Qed.

Lemma bufferAt_mod (i : Z) : bufferAt B N i = i mod N * B.
Proof. rewrite bufferAt_land, land_mask_mod. reflexivity. Qed.

(** An index and its value as a [uint64_t] name the same slot. *)
Lemma bufferAt_wrap (i : Z) : bufferAt B N (U64.wrap i) = bufferAt B N i.
Proof.
  rewrite !bufferAt_mod. f_equal. unfold U64.wrap, U64.modulus.
  destruct pool_size_pow2 as [k [Hk ->]].
  apply Z.mod_mod_divide.
  exists (2 ^ (64 - k)). rewrite <- Z.pow_add_r by lia.
  replace (64 - k + k) with 64 by lia. reflexivity.
Qed.

(** Indices less than [N] apart have different slots. *)
Lemma bufferAt_apart (i j : Z) :
  0 < B -> 0 < j - i < N -> bufferAt B N i <> bufferAt B N j.
Proof.
  intros HB Hij Heq. rewrite !bufferAt_mod in Heq.
  apply Z.mul_cancel_r in Heq; [| lia].
  pose proof pool_size_bounds as HN.
  assert (Hd : (j - i) mod N = 0).
  { rewrite Zminus_mod, Heq, Z.sub_diag. apply Z.mod_0_l. lia. }
  rewrite Z.mod_small in Hd by lia. lia.
Qed.

(** ** The producer: [nextWritableBuffer] *)

(** While [R + N] does not wrap, which is so for every [R] up to the sentinel,
    the admission test is the inequality on integers. *)
Lemma admits_iff (st : WaitFreeBufferPool T) :
  wf st -> readIndex st <= readIndexMax N ->
  admits N st = true <-> writeIndex st < readIndex st + N.
Proof.
  intros (HW & HR & _) Hle. rewrite readIndexMax_eq in Hle.
  pose proof pool_size_bounds. unfold U64.in_range in *.
  unfold admits. rewrite add64_small by (unfold U64.in_range; lia).
  apply Z.ltb_lt.
Qed.

(** An admitted call finds [W] below [2 ^ 64 - 1]: the increment is exact. *)
Lemma admits_below_max (st : WaitFreeBufferPool T) :
  wf st -> admits N st = true -> writeIndex st < U64.max.
Proof.
  intros (HW & HR & _) Ha. unfold admits in Ha. apply Z.ltb_lt in Ha.
  pose proof (wrap64_range (readIndex st + N)) as Hr.
  unfold U64.add in Ha. unfold U64.in_range in Hr. lia.
Qed.

Lemma nextWritableBuffer_admitted (st : WaitFreeBufferPool T) :
  wf st -> admits N st = true ->
  nextWritableBuffer B N st =
  (store_writeIndex st (writeIndex st + 1), bufferAt B N (writeIndex st + 1)).
Proof.
  intros Hwf Ha. pose proof (admits_below_max st Hwf Ha) as Hlt.
  destruct Hwf as (HW & _). unfold U64.in_range in HW.
  unfold nextWritableBuffer. unfold admits in Ha. rewrite Ha.
  rewrite incr64_small by lia. reflexivity.
Qed.

Lemma nextWritableBuffer_full (st : WaitFreeBufferPool T) :
  admits N st = false ->
  nextWritableBuffer B N st =
  (store_overflowCount st (U64.incr (overflowCount st)),
   bufferAt B N (writeIndex st)).
Proof.
  intros Ha. unfold nextWritableBuffer. unfold admits in Ha. rewrite Ha.
  reflexivity.
Qed.

Lemma nextWritableBuffer_returns_current (st : WaitFreeBufferPool T) :
  wf st ->
  snd (nextWritableBuffer B N st) =
  bufferAt B N (writeIndex (fst (nextWritableBuffer B N st))).
Proof.
  intros Hwf. destruct (admits N st) eqn:Ha.
  - rewrite nextWritableBuffer_admitted by assumption. reflexivity.
  - rewrite nextWritableBuffer_full by assumption. reflexivity.
Qed.

Lemma nextWritableBuffer_wf (st : WaitFreeBufferPool T) :
  wf st -> wf (fst (nextWritableBuffer B N st)).
Proof.
  intros Hwf. destruct (admits N st) eqn:Ha.
  - pose proof (admits_below_max st Hwf Ha).
    rewrite nextWritableBuffer_admitted by assumption.
    destruct Hwf as (HW & HR & HO). unfold wf, U64.in_range in *. simpl. lia.
  - rewrite nextWritableBuffer_full by assumption.
    destruct Hwf as (HW & HR & HO). unfold wf. simpl.
    repeat split; try apply HW; try apply HR; apply incr64_range.
Qed.

(** C1.  For a pool whose [R] is no greater than the sentinel
    [2 ^ 64 - 1 - N], so that [R + N] does not wrap: when [W < R + N] holds
    at entry, [nextWritableBuffer] adds exactly one to [W], leaves [R] and
    the overflow counter alone and returns the slot of the new [W].  What
    the code tests is [windex < rindex + poolSize] with the sum of
    [uint64_t]: where that holds the call does the same in every state, and
    it is the inequality on integers for every [R] up to the sentinel.  In
    both branches the pointer returned is the slot of the [W] the call
    leaves behind, [storage[W mod N]], the remainder being taken with the
    mask [W & (N - 1)]. *)
Theorem nextWritableBuffer_advances (st : WaitFreeBufferPool T) :
  wf st ->
  let st' := fst (nextWritableBuffer B N st) in
  let p := snd (nextWritableBuffer B N st) in
  (readIndex st <= readIndexMax N ->
   writeIndex st < readIndex st + N ->
   writeIndex st' = writeIndex st + 1 /\
   readIndex st' = readIndex st /\
   overflowCount st' = overflowCount st /\
   p = bufferAt B N (writeIndex st + 1)) /\
  (admits N st = true ->
   writeIndex st' = writeIndex st + 1 /\
   readIndex st' = readIndex st /\
   overflowCount st' = overflowCount st /\
   p = bufferAt B N (writeIndex st + 1)) /\
  p = bufferAt B N (writeIndex st') /\
  p = Z.land (writeIndex st') (N - 1) * B /\
  p = writeIndex st' mod N * B /\
  (readIndex st <= readIndexMax N ->
   (admits N st = true <-> writeIndex st < readIndex st + N)).
Proof.
  intros Hwf st' p. subst st' p.
  assert (Hadm : admits N st = true ->
    writeIndex (fst (nextWritableBuffer B N st)) = writeIndex st + 1 /\
    readIndex (fst (nextWritableBuffer B N st)) = readIndex st /\
    overflowCount (fst (nextWritableBuffer B N st)) = overflowCount st /\
    snd (nextWritableBuffer B N st) = bufferAt B N (writeIndex st + 1)).
  { intros Ha. rewrite nextWritableBuffer_admitted by assumption.
    simpl. auto. }
  split; [| split; [| split; [| split; [| split]]]].
  - intros Hle Hlt. apply Hadm. apply admits_iff; assumption.
  - exact Hadm.
  - apply nextWritableBuffer_returns_current, Hwf.
  - rewrite nextWritableBuffer_returns_current by assumption.
    apply bufferAt_land.
  - rewrite nextWritableBuffer_returns_current by assumption.
    apply bufferAt_mod.
  - intros Hle. apply admits_iff; assumption.
Qed.

(** ** The consumer: [nextReadableBuffer] *)

Lemma cassert_passes (c : bool) :
  NDEBUG = true \/ c = true -> cassert NDEBUG c = Ret tt.
Proof.
  unfold cassert. intros [-> | ->]; [reflexivity |].
  rewrite orb_true_r. reflexivity.
Qed.

Lemma nextReadableBuffer_none (st : WaitFreeBufferPool T) :
  nextReadableBuffer B N NDEBUG st None = Ret (st, readable_from B N st (readIndex st)).
Proof. reflexivity. Qed.

Lemma nextReadableBuffer_some (st : WaitFreeBufferPool T) (p : ptr) :
  assertion_passes B N NDEBUG st (Some p) ->
  nextReadableBuffer B N NDEBUG st (Some p) =
  Ret (store_readIndex st (U64.incr (readIndex st)),
       readable_from B N st (U64.incr (readIndex st))).
Proof.
  intros Hp. unfold nextReadableBuffer.
  rewrite cassert_passes; [reflexivity |].
  destruct Hp as [Hd | Hp]; [left; exact Hd | right].
  apply Z.eqb_eq. apply Hp. reflexivity.
Qed.

(** With assertions compiled in, a pointer that is not the slot after [R]
    stops the program. *)
Lemma nextReadableBuffer_aborts (st : WaitFreeBufferPool T) (p : ptr) :
  NDEBUG = false -> p <> bufferAt B N (U64.incr (readIndex st)) ->
  nextReadableBuffer B N NDEBUG st (Some p) = Aborted.
Proof.
  intros Hd Hp. unfold nextReadableBuffer, cassert. rewrite Hd.
  apply Z.eqb_neq in Hp. rewrite Hp. reflexivity.
Qed.

Lemma readable_from_slot (st : WaitFreeBufferPool T) (r : Z) :
  readable_from B N st r =
  if writeIndex st >? U64.add r 1 then Some (bufferAt B N (r + 1)) else None.
Proof.
  unfold readable_from. destruct (writeIndex st >? U64.add r 1); [| reflexivity].
  unfold U64.add. rewrite bufferAt_wrap. reflexivity.
Qed.

(** C3.  [nextReadableBuffer] moves [R] forward by one, the increment of a
    64-bit counter, when its argument is not null, and only then; [W] and the
    overflow counter are left alone.  With the counters as the call leaves
    them, it returns the slot of the logical index [R + 1] when the test
    [windex > rindex + 1] of the code holds and [nullptr] when it does not.
    Below [2 ^ 64 - 1] the increment is [R + 1] on integers and the test is
    [W > R + 1]. *)
Theorem nextReadableBuffer_step (st : WaitFreeBufferPool T) (prev : option ptr) :
  wf st -> assertion_passes B N NDEBUG st prev ->
  exists st' res,
    nextReadableBuffer B N NDEBUG st prev = Ret (st', res) /\
    readIndex st' =
      match prev with
      | Some _ => U64.incr (readIndex st)
      | None => readIndex st
      end /\
    (prev <> None -> readIndex st < U64.max -> readIndex st' = readIndex st + 1) /\
    writeIndex st' = writeIndex st /\
    overflowCount st' = overflowCount st /\
    res =
      (if writeIndex st' >? U64.add (readIndex st') 1
       then Some (bufferAt B N (readIndex st' + 1)) else None) /\
    (readIndex st' < U64.max ->
     ((writeIndex st' >? U64.add (readIndex st') 1) = true <->
      writeIndex st' > readIndex st' + 1)).
Proof.
  intros (HW & HR & HO) Hp.
  assert (Htest : forall r, U64.in_range r -> r < U64.max ->
            (writeIndex st >? U64.add r 1) = true <-> writeIndex st > r + 1).
  { intros r Hr Hlt. unfold U64.in_range in Hr.
    rewrite add64_small by (unfold U64.in_range; lia).
    rewrite Z.gtb_ltb, Z.ltb_lt. lia. }
  destruct prev as [p |].
  - eexists _, _. split; [apply nextReadableBuffer_some, Hp |]. simpl.
    repeat split; try reflexivity.
    + intros _ Hlt. unfold U64.in_range in HR. apply incr64_small. lia.
    + apply readable_from_slot.
    + apply Htest; [apply incr64_range | assumption].
    + apply Htest; [apply incr64_range | assumption].
  - eexists _, _. split; [apply nextReadableBuffer_none |].
    repeat split; try reflexivity.
    + intros Hn. contradiction Hn. reflexivity.
    + apply readable_from_slot.
    + apply Htest; assumption.
    + apply Htest; assumption.
Qed.

(** ** Attach and detach *)

Lemma propose_max (w : Z) : U64.in_range w -> propose w = Z.max (w - 1) 0.
Proof.
  intros Hw. unfold U64.in_range in Hw. unfold propose.
  destruct (Z.eqb_spec w 0) as [-> | Hne]; [reflexivity |].
  unfold U64.sub. rewrite wrap64_small by (unfold U64.in_range; lia). lia.
Qed.

Lemma propose_range (w : Z) : U64.in_range w -> U64.in_range (propose w).
Proof.
  intros Hw. rewrite propose_max by assumption.
  unfold U64.in_range in *. lia.
Qed.

Lemma nextWritableBuffer_readIndex (st : WaitFreeBufferPool T) :
  readIndex (fst (nextWritableBuffer B N st)) = readIndex st.
Proof.
  unfold nextWritableBuffer.
  destruct (writeIndex st <? U64.add (readIndex st) N); reflexivity.
Qed.

Lemma nextWritableBuffer_mono (st : WaitFreeBufferPool T) :
  wf st -> writeIndex st <= writeIndex (fst (nextWritableBuffer B N st)).
Proof.
  intros Hwf. destruct (admits N st) eqn:Ha.
  - rewrite nextWritableBuffer_admitted by assumption. simpl. lia.
  - rewrite nextWritableBuffer_full by assumption. simpl. lia.
Qed.

Lemma producer_runs_readIndex (k : nat) (st : WaitFreeBufferPool T) :
  readIndex (producer_runs B N k st) = readIndex st.
Proof.
  revert st. induction k as [| k IH]; intros st; simpl; [reflexivity |].
  rewrite IH. apply nextWritableBuffer_readIndex.
Qed.

Lemma producer_runs_wf (k : nat) (st : WaitFreeBufferPool T) :
  wf st -> wf (producer_runs B N k st).
Proof.
  revert st. induction k as [| k IH]; intros st Hwf; simpl; [exact Hwf |].
  apply IH, nextWritableBuffer_wf, Hwf.
Qed.

Lemma producer_runs_mono (k : nat) (st : WaitFreeBufferPool T) :
  wf st -> writeIndex st <= writeIndex (producer_runs B N k st).
Proof.
  revert st. induction k as [| k IH]; intros st Hwf; simpl; [lia |].
  pose proof (nextWritableBuffer_mono st Hwf).
  pose proof (IH _ (nextWritableBuffer_wf st Hwf)). lia.
Qed.

Lemma store_readIndex_wf (st : WaitFreeBufferPool T) (r : Z) :
  wf st -> U64.in_range r -> wf (store_readIndex st r).
Proof. intros (HW & HR & HO) Hr. repeat split; simpl; first [apply HW | apply Hr | apply HO]. Qed.

(** Leaving the loop means [W - R <= N], also where [R + N] wraps. *)
Lemma attach_exit_bound (r w : Z) :
  U64.in_range r -> U64.in_range w ->
  (w >? U64.add r N) = false -> w - r <= N.
Proof.
  intros Hr Hw Ht. rewrite Z.gtb_ltb in Ht. apply Z.ltb_ge in Ht.
  pose proof pool_size_bounds as HN. unfold U64.in_range in *.
  destruct (Z_le_gt_dec (r + N) U64.max) as [Hs | Hc].
  - rewrite add64_small in Ht by (unfold U64.in_range; lia). lia.
  - rewrite add64_carry in Ht by (unfold U64.max in *; lia).
    unfold U64.modulus, U64.max in *. lia.
Qed.

(** One iteration, for a proposal that [R + N] does not wrap for: the test
    is the comparison on integers. *)
Lemma attach_loop_step (w w' : Z) (loads : list Z) (st : WaitFreeBufferPool T) :
  U64.in_range w -> w <= readIndexMax N + 1 ->
  attach_loop N (w' :: loads) st w =
  let r := Z.max (w - 1) 0 in
  if w' >? r + N then attach_loop N loads (store_readIndex st r) w'
  else Some (store_readIndex st r, (r, w')).
Proof.
  intros Hw Hle. cbn [attach_loop]. rewrite propose_max by assumption.
  rewrite readIndexMax_eq in Hle. pose proof pool_size_bounds as HN.
  unfold U64.in_range in Hw.
  rewrite add64_small by (unfold U64.in_range, U64.max in *; lia).
  reflexivity.
Qed.

(** One iteration above that: [R + N] wraps, and the test compares the
    reloaded [W] with [R + N - 2 ^ 64], a number below [N]. *)
Lemma attach_loop_step_wrapped (w w' : Z) (loads : list Z) (st : WaitFreeBufferPool T) :
  U64.in_range w -> readIndexMax N + 1 < w ->
  attach_loop N (w' :: loads) st w =
  let r := w - 1 in
  if w' >? r + N - 2 ^ 64 then attach_loop N loads (store_readIndex st r) w'
  else Some (store_readIndex st r, (r, w')).
Proof.
  intros Hw Hgt. cbn [attach_loop]. rewrite propose_max by assumption.
  rewrite readIndexMax_eq in Hgt. pose proof pool_size_bounds as HN.
  unfold U64.in_range in Hw.
  replace (Z.max (w - 1) 0) with (w - 1) by (unfold U64.max in *; lia).
  rewrite add64_carry by (unfold U64.max in *; lia).
  reflexivity.
Qed.

(** Whatever the loads return, the pair that comes back has [W - R <= N],
    [R] is what the pool holds, and [R] was proposed from the load before
    the last. *)
Lemma attach_loop_post (loads : list Z) :
  forall (st : WaitFreeBufferPool T) (w : Z) st' r w',
  U64.in_range w -> Forall U64.in_range loads ->
  attach_loop N loads st w = Some (st', (r, w')) ->
  U64.in_range w' /\ w' - r <= N /\ st' = store_readIndex st r /\
  exists l wp, attach_loads N loads w = l ++ [wp; w'] /\
               r = Z.max (wp - 1) 0.
Proof.
  induction loads as [| w1 loads IH]; intros st w st' r w' Hw Hall Hres;
    [discriminate Hres |].
  apply Forall_cons_iff in Hall. destruct Hall as [Hw1 Hall].
  cbn [attach_loop attach_loads] in Hres |- *.
  destruct (w1 >? U64.add (propose w) N) eqn:Ht.
  - destruct (IH _ _ _ _ _ Hw1 Hall Hres) as (H0 & H1 & H2 & l & wp & Hl & Hr).
    split; [exact H0 |]. split; [exact H1 |].
    split; [rewrite H2; reflexivity |].
    exists (w :: l), wp. rewrite Hl. split; [reflexivity | exact Hr].
  - injection Hres as <- <- <-.
    split; [exact Hw1 |]. split.
    { apply attach_exit_bound; [apply propose_range, Hw | exact Hw1 | exact Ht]. }
    split; [reflexivity |].
    exists [], w. split; [reflexivity | apply propose_max, Hw].
Qed.

(** With no producer beside it the loop leaves at its first test, or never. *)
Lemma attach_loop_quiet (fuel : nat) (w : Z) :
  forall st : WaitFreeBufferPool T,
  attach_loop N (repeat w fuel) st w =
  match fuel with
  | O => None
  | S _ =>
      if w >? U64.add (propose w) N then None
      else Some (store_readIndex st (propose w), (propose w, w))
  end.
Proof.
  induction fuel as [| fuel IH]; intros st; [reflexivity |].
  cbn [repeat attach_loop].
  destruct (w >? U64.add (propose w) N) eqn:Ht; [| reflexivity].
  rewrite IH. destruct fuel; reflexivity.
Qed.

Lemma attachReader_unfold (fuel : nat) (st : WaitFreeBufferPool T) :
  attachReader N fuel st = attach_loop N (repeat (writeIndex st) fuel) st (writeIndex st).
Proof. reflexivity. Qed.

(** The quiet loop tests [W > max (W - 1, 0) + N]: false up to
    [W = 2 ^ 64 - N], true above, where the sum wraps. *)
Lemma attach_test_quiet (w : Z) :
  U64.in_range w ->
  (w >? U64.add (propose w) N) = negb (w <=? readIndexMax N + 1).
Proof.
  intros Hw. rewrite propose_max by assumption. rewrite readIndexMax_eq.
  pose proof pool_size_bounds as HN. unfold U64.in_range in Hw.
  rewrite Z.gtb_ltb.
  destruct (Z.leb_spec w (U64.max - N + 1)) as [Hle | Hgt]; cbv [negb].
  - rewrite add64_small by (unfold U64.in_range, U64.max in *; lia).
    apply Z.ltb_ge. lia.
  - rewrite add64_carry by (unfold U64.max in *; lia).
    apply Z.ltb_lt. unfold U64.modulus, U64.max in *. lia.
Qed.

Lemma attachReader_quiet (fuel : nat) (st : WaitFreeBufferPool T) :
  wf st -> writeIndex st <= readIndexMax N + 1 ->
  attachReader N (S fuel) st =
  Some (store_readIndex st (Z.max (writeIndex st - 1) 0),
        (Z.max (writeIndex st - 1) 0, writeIndex st)).
Proof.
  intros Hwf Hle.
  rewrite attachReader_unfold, attach_loop_quiet, attach_test_quiet by apply Hwf.
  apply Z.leb_le in Hle. rewrite Hle. simpl.
  rewrite propose_max by apply Hwf. reflexivity.
Qed.

Lemma attachReader_stuck (fuel : nat) (st : WaitFreeBufferPool T) :
  wf st -> readIndexMax N + 1 < writeIndex st ->
  attachReader N fuel st = None.
Proof.
  intros Hwf Hgt.
  rewrite attachReader_unfold, attach_loop_quiet. destruct fuel; [reflexivity |].
  rewrite attach_test_quiet by apply Hwf.
  apply Z.leb_gt in Hgt. rewrite Hgt. reflexivity.
Qed.

(** C5.  One iteration of [attachReader] proposes [R := W - 1], or [0] when
    [W = 0], from the [W] it loaded, stores it and reloads [W].  For a
    loaded [W <= 2 ^ 64 - N] it goes round again exactly when the reloaded
    [W > R + N]; for a loaded [W] above that it compares with the wrapped
    sum, [R + N - 2 ^ 64].  Whatever values the loads of [_writeIndex]
    return, the pair [(R, W)] that comes back satisfies [W - R <= N], the
    pool holds that [R], and [R = max (W' - 1, 0)] for [W'] the value loaded
    just before the last reload.  With the producer standing still the
    attach returns at its first test, with [(max (W - 1, 0), W)], for every
    [W <= 2 ^ 64 - N], [(0, 0)] when [W = 0]; above [2 ^ 64 - N] it never
    returns. *)
Theorem attachReader_post (st : WaitFreeBufferPool T) :
  wf st ->
  (forall w w' loads (st0 : WaitFreeBufferPool T),
     U64.in_range w -> w <= 2 ^ 64 - N ->
     attach_loop N (w' :: loads) st0 w =
     let r := Z.max (w - 1) 0 in
     if w' >? r + N then attach_loop N loads (store_readIndex st0 r) w'
     else Some (store_readIndex st0 r, (r, w'))) /\
  (forall w w' loads (st0 : WaitFreeBufferPool T),
     U64.in_range w -> 2 ^ 64 - N < w ->
     attach_loop N (w' :: loads) st0 w =
     let r := w - 1 in
     if w' >? r + N - 2 ^ 64 then attach_loop N loads (store_readIndex st0 r) w'
     else Some (store_readIndex st0 r, (r, w'))) /\
  (forall w0 loads st' r w,
     Forall U64.in_range (w0 :: loads) ->
     attachReader_with N (w0 :: loads) st = Some (st', (r, w)) ->
     w - r <= N /\ st' = store_readIndex st r /\ readIndex st' = r /\
     exists l wp,
       attach_loads N loads w0 = l ++ [wp; w] /\
       r = Z.max (wp - 1) 0) /\
  (forall fuel st' r w,
     attachReader N fuel st = Some (st', (r, w)) ->
     w = writeIndex st /\ r = Z.max (w - 1) 0 /\ w <= 2 ^ 64 - N) /\
  (forall fuel,
     writeIndex st <= 2 ^ 64 - N ->
     attachReader N (S fuel) st =
     Some (store_readIndex st (Z.max (writeIndex st - 1) 0),
           (Z.max (writeIndex st - 1) 0, writeIndex st))) /\
  (forall fuel,
     2 ^ 64 - N < writeIndex st ->
     attachReader N fuel st = None) /\
  (forall fuel,
     writeIndex st = 0 ->
     attachReader N (S fuel) st = Some (store_readIndex st 0, (0, 0))).
Proof.
  intros Hwf.
  assert (Hmax : readIndexMax N + 1 = 2 ^ 64 - N).
  { rewrite readIndexMax_eq. unfold U64.max. lia. }
  split; [| split; [| split; [| split; [| split; [| split]]]]].
  - intros w w' loads st0 Hw Hle. apply attach_loop_step; [assumption | lia].
  - intros w w' loads st0 Hw Hgt. apply attach_loop_step_wrapped; [assumption | lia].
  - intros w0 loads st' r w Hall Hres.
    apply Forall_cons_iff in Hall. destruct Hall as [Hw0 Hall].
    destruct (attach_loop_post loads st w0 st' r w Hw0 Hall Hres)
      as (_ & H2 & H3 & H4).
    split; [exact H2 |]. split; [exact H3 |]. split; [| exact H4].
    rewrite H3. reflexivity.
  - intros fuel st' r w Hres.
    destruct (Z_le_gt_dec (writeIndex st) (readIndexMax N + 1)) as [Hle | Hgt].
    + destruct fuel as [| fuel]; [discriminate Hres |].
      rewrite attachReader_quiet in Hres by assumption.
      injection Hres as _ <- <-. split; [reflexivity |]. split; [reflexivity | lia].
    + rewrite attachReader_stuck in Hres by (try assumption; lia).
      discriminate Hres.
  - intros fuel Hle. apply attachReader_quiet; [assumption | lia].
  - intros fuel Hgt. apply attachReader_stuck; [assumption | lia].
  - intros fuel H0. pose proof pool_size_bounds as HN.
    rewrite attachReader_quiet.
    + rewrite H0. reflexivity.
    + assumption.
    + rewrite H0. lia.
Qed.

Lemma attachReader_result (fuel : nat) (st st' : WaitFreeBufferPool T) (rw : Z * Z) :
  attachReader N fuel st = Some (st', rw) ->
  st' = store_readIndex st (propose (writeIndex st)) /\
  rw = (propose (writeIndex st), writeIndex st).
Proof.
  rewrite attachReader_unfold, attach_loop_quiet.
  destruct fuel; [discriminate |].
  destruct (writeIndex st >? U64.add (propose (writeIndex st)) N);
    [discriminate |].
  intros Hres. injection Hres as <- <-. auto.
Qed.

(** C6.  [detachReader] returns the pair [(R, W)] it read and leaves the
    sentinel [2 ^ 64 - 1 - N] in [R], nothing else changed.  An attach that
    follows it with the producer standing still returns
    [(max (W - 1, 0), W)] for every [W <= 2 ^ 64 - N]: [(W - 1, W)] from
    [W = 1] on, and [(0, 0)] when [W = 0]. *)
Theorem detach_then_attach (st : WaitFreeBufferPool T) (fuel : nat) :
  wf st ->
  detachReader N st =
    (store_readIndex st (readIndexMax N), (readIndex st, writeIndex st)) /\
  readIndexMax N = 2 ^ 64 - 1 - N /\
  (writeIndex st <= 2 ^ 64 - N ->
   attachReader N (S fuel) (fst (detachReader N st)) =
   Some (store_readIndex st (Z.max (writeIndex st - 1) 0),
         (Z.max (writeIndex st - 1) 0, writeIndex st))) /\
  (1 <= writeIndex st <= 2 ^ 64 - N ->
   option_map snd (attachReader N (S fuel) (fst (detachReader N st))) =
   Some (writeIndex st - 1, writeIndex st)) /\
  (writeIndex st = 0 ->
   option_map snd (attachReader N (S fuel) (fst (detachReader N st))) =
   Some (0, 0)).
Proof.
  intros Hwf.
  assert (Hd : wf (fst (detachReader N st))).
  { simpl. apply store_readIndex_wf; [exact Hwf |].
    unfold readIndexMax, U64.sub. apply wrap64_range. }
  assert (Hgen : writeIndex st <= 2 ^ 64 - N ->
    attachReader N (S fuel) (fst (detachReader N st)) =
    Some (store_readIndex st (Z.max (writeIndex st - 1) 0),
          (Z.max (writeIndex st - 1) 0, writeIndex st))).
  { intros Hle. rewrite attachReader_quiet; [reflexivity | exact Hd |].
    simpl. rewrite readIndexMax_eq. unfold U64.max. lia. }
  pose proof pool_size_bounds as HN.
  split; [reflexivity |]. split; [apply readIndexMax_eq |].
  split; [exact Hgen |]. split.
  - intros [H1 Hle]. rewrite Hgen by exact Hle. simpl.
    rewrite Z.max_l by lia. reflexivity.
  - intros H0. rewrite Hgen by lia. simpl. rewrite H0. reflexivity.
Qed.

(** ** The overflow counter *)

Lemma nextReadableBuffer_overflowCount (st st' : WaitFreeBufferPool T)
      (prev res : option ptr) :
  nextReadableBuffer B N NDEBUG st prev = Ret (st', res) ->
  overflowCount st' = overflowCount st.
Proof.
  unfold nextReadableBuffer. destruct prev as [p |].
  - destruct (cassert NDEBUG (p =? bufferAt B N (U64.incr (readIndex st))));
      simpl; [| discriminate].
    intros Hres. injection Hres as <- _. reflexivity.
  - intros Hres. injection Hres as <- _. reflexivity.
Qed.

(** A pool that refuses the producer while [R <= W <= R + N] and [R + N] does
    not wrap is full. *)
Lemma full_when_refused (st : WaitFreeBufferPool T) :
  wf st -> readIndex st <= writeIndex st ->
  writeIndex st - readIndex st <= N -> readIndex st <= readIndexMax N ->
  admits N st = false -> writeIndex st - readIndex st = N.
Proof.
  intros Hwf HRW HWN HR Ha.
  destruct (Z_lt_le_dec (writeIndex st) (readIndex st + N)) as [Hlt | Hge];
    [| lia].
  apply (admits_iff st Hwf HR) in Hlt. congruence.
Qed.

(** C2.  When the admission test fails at entry, [nextWritableBuffer] leaves
    [W] and [R] as they are, increments the overflow counter (a 64-bit
    increment: by exactly one below [2 ^ 64 - 1]) and returns the slot of the
    unchanged [W].  No other call touches the counter: not an admitted
    [nextWritableBuffer], not [nextReadableBuffer], [detachReader] or
    [attachReader].  Below [2 ^ 64 - 1] the counter never decreases.  For a
    pool with [R <= W], [W - R <= N] and [R] up to the sentinel, the test
    fails only when [W - R = N]. *)
Theorem overflowCount_accounting (st : WaitFreeBufferPool T) :
  wf st ->
  (admits N st = false ->
   writeIndex (fst (nextWritableBuffer B N st)) = writeIndex st /\
   readIndex (fst (nextWritableBuffer B N st)) = readIndex st /\
   overflowCount (fst (nextWritableBuffer B N st)) = U64.incr (overflowCount st) /\
   (overflowCount st < U64.max ->
    overflowCount (fst (nextWritableBuffer B N st)) = overflowCount st + 1) /\
   snd (nextWritableBuffer B N st) = bufferAt B N (writeIndex st)) /\
  (admits N st = true ->
   overflowCount (fst (nextWritableBuffer B N st)) = overflowCount st) /\
  (forall prev st' res,
     nextReadableBuffer B N NDEBUG st prev = Ret (st', res) ->
     overflowCount st' = overflowCount st) /\
  overflowCount (fst (detachReader N st)) = overflowCount st /\
  (forall fuel st' rw,
     attachReader N fuel st = Some (st', rw) ->
     overflowCount st' = overflowCount st) /\
  (overflowCount st < U64.max ->
   overflowCount st <= overflowCount (fst (nextWritableBuffer B N st))) /\
  (readIndex st <= writeIndex st ->
   writeIndex st - readIndex st <= N ->
   readIndex st <= readIndexMax N ->
   admits N st = false -> writeIndex st - readIndex st = N).
Proof.
  intros Hwf. pose proof Hwf as (HW & HR & HO). unfold U64.in_range in HO.
  split; [| split; [| split; [| split; [| split; [| split]]]]].
  - intros Ha. rewrite nextWritableBuffer_full by assumption. simpl.
    split; [reflexivity |]. split; [reflexivity |]. split; [reflexivity |].
    split; [| reflexivity].
    intros Hlt. apply incr64_small. lia.
  - intros Ha. rewrite nextWritableBuffer_admitted by assumption. reflexivity.
  - intros prev st' res. apply nextReadableBuffer_overflowCount.
  - reflexivity.
  - intros fuel st' rw Hres.
    destruct (attachReader_result fuel st st' rw Hres) as [-> _]. reflexivity.
  - intros Hlt. destruct (admits N st) eqn:Ha.
    + rewrite nextWritableBuffer_admitted by assumption. simpl. lia.
    + rewrite nextWritableBuffer_full by assumption. simpl.
      rewrite incr64_small by lia. lia.
  - apply full_when_refused, Hwf.
Qed.

(** ** Sequential clients keep the counters in order *)

Lemma readIndexMax_range : U64.in_range (readIndexMax N).
Proof. unfold readIndexMax, U64.sub. apply wrap64_range. Qed.

Lemma fresh_inv : client_inv B N (fresh T0 B N).
Proof.
  pose proof pool_size_bounds as HN. pose proof readIndexMax_range as HR.
  unfold client_inv, fresh, new_pool, wf; simpl.
  split; [| split; [| reflexivity]].
  - repeat split; try apply HR; unfold U64.max; lia.
  - unfold U64.in_range in HR. lia.
Qed.

Lemma client_inv_counters (s : client T) : client_inv B N s -> counters_inv N s.
Proof.
  intros (_ & HWN & Hc). split; [| exact HWN].
  unfold attached. destruct (consumer s) as [cur |].
  - intros _. apply Hc.
  - intros Hn. contradiction Hn. reflexivity.
Qed.

(** What the consumer's call does in a state of the invariant: the assertion
    holds, [R] moves by one exactly when a slot is handed back, and a slot
    comes out only when [W] is beyond [R + 1]. *)
Lemma read_attached (s : client T) (cur : option ptr) :
  client_inv B N s -> consumer s = Some cur ->
  let r' := match cur with
            | Some _ => readIndex (pool_of s) + 1
            | None => readIndex (pool_of s)
            end in
  exists st',
    nextReadableBuffer B N NDEBUG (pool_of s) cur =
    Ret (st', if writeIndex (pool_of s) >? r' + 1
              then Some (bufferAt B N (r' + 1)) else None) /\
    readIndex st' = r' /\
    writeIndex st' = writeIndex (pool_of s) /\
    overflowCount st' = overflowCount (pool_of s) /\
    r' <= writeIndex (pool_of s) /\ r' < U64.max.
Proof.
  intros (Hwf & HWN & Hc) Hcur r'. rewrite Hcur in Hc.
  destruct Hc as (HRW & HRmax & Hc).
  pose proof Hwf as (HW & HR & HO). unfold U64.in_range in HW, HR.
  destruct cur as [p |]; subst r'.
  - destruct Hc as [Hlt Hp].
    assert (Hi : U64.incr (readIndex (pool_of s)) = readIndex (pool_of s) + 1)
      by (apply incr64_small; lia).
    exists (store_readIndex (pool_of s) (readIndex (pool_of s) + 1)).
    split; [| simpl; repeat split; lia].
    rewrite nextReadableBuffer_some.
    + rewrite Hi, readable_from_slot.
      rewrite add64_small by (unfold U64.in_range; lia). reflexivity.
    + right. intros q Hq. injection Hq as <-. rewrite Hi. exact Hp.
  - exists (pool_of s). split; [| repeat split; lia].
    rewrite nextReadableBuffer_none, readable_from_slot.
    rewrite add64_small by (unfold U64.in_range; lia). reflexivity.
Qed.

Lemma exec_preserves (fuel : nat) (s s' : client T) (c : call) :
  client_inv B N s -> exec B N NDEBUG fuel s c = Some s' -> client_inv B N s'.
Proof.
  intros Hinv Hex. pose proof pool_size_bounds as HN.
  pose proof Hinv as (Hwf & HWN & Hc).
  pose proof Hwf as (HW & HR & HO). unfold U64.in_range in HW, HR.
  destruct c; simpl in Hex.
  - (* attachReader *)
    destruct (attachReader N fuel (pool_of s)) as [[st rw] |] eqn:Ha;
      [| discriminate Hex].
    injection Hex as <-.
    destruct (attachReader_result fuel _ _ _ Ha) as [-> _].
    rewrite propose_max by exact HW.
    unfold client_inv; simpl. split.
    { apply store_readIndex_wf; [exact Hwf |]. unfold U64.in_range. lia. }
    unfold U64.max in *. lia.
  - (* detachReader *)
    injection Hex as <-. unfold client_inv; simpl. split.
    { apply store_readIndex_wf; [exact Hwf | apply readIndexMax_range]. }
    split; [| reflexivity].
    rewrite readIndexMax_eq. lia.
  - (* nextWritableBuffer *)
    injection Hex as <-. unfold client_inv; simpl.
    split; [apply nextWritableBuffer_wf, Hwf |].
    destruct (admits N (pool_of s)) eqn:Ha.
    + pose proof (admits_below_max _ Hwf Ha) as Hlt.
      rewrite nextWritableBuffer_admitted by assumption. simpl.
      unfold admits in Ha. apply Z.ltb_lt in Ha.
      destruct (consumer s) as [cur |].
      * destruct Hc as (HRW & HRmax & Hc).
        assert (Hsum : readIndex (pool_of s) + N <= U64.max).
        { destruct (Z_le_gt_dec (readIndex (pool_of s) + N) U64.max)
            as [Hs | Hcarry]; [exact Hs | exfalso].
          rewrite add64_carry in Ha by (unfold U64.max in *; lia).
          unfold U64.modulus, U64.max in *. lia. }
        rewrite add64_small in Ha by (unfold U64.in_range; lia).
        split; [lia |]. split; [lia |]. split; [exact HRmax |].
        destruct cur as [p |]; [| exact I].
        destruct Hc as [Hc1 Hc2]. split; [lia | exact Hc2].
      * rewrite Hc. rewrite readIndexMax_eq. split; [lia | reflexivity].
    + rewrite nextWritableBuffer_full by assumption. simpl.
      split; [exact HWN | exact Hc].
  - (* nextReadableBuffer *)
    destruct (consumer s) as [cur |] eqn:Hcur; [| discriminate Hex].
    destruct (read_attached s cur Hinv Hcur)
      as (st' & Hret & HR' & HW' & HO' & Hle & Hmax).
    rewrite Hret in Hex. injection Hex as <-.
    unfold client_inv, wf; simpl. rewrite HR', HW', HO'.
    destruct Hc as (HRW & HRmax & Hc).
    assert (Hr : 0 <= match cur with
                      | Some _ => readIndex (pool_of s) + 1
                      | None => readIndex (pool_of s)
                      end) by (destruct cur; lia).
    assert (Hr2 : readIndex (pool_of s) <= match cur with
                      | Some _ => readIndex (pool_of s) + 1
                      | None => readIndex (pool_of s)
                      end) by (destruct cur; lia).
    split; [unfold U64.in_range; repeat split; try apply HO; lia |].
    split; [lia |]. split; [exact Hle |]. split; [exact Hmax |].
    rewrite Z.gtb_ltb.
    destruct (Z.ltb_spec (match cur with
                      | Some _ => readIndex (pool_of s) + 1
                      | None => readIndex (pool_of s)
                      end + 1) (writeIndex (pool_of s))) as [Hlt | Hge];
      [| exact I].
    split; [exact Hlt | reflexivity].
Qed.

Lemma run_preserves (fuel : nat) (cs : list call) :
  forall s s' : client T,
  client_inv B N s -> run B N NDEBUG fuel s cs = Some s' -> client_inv B N s'.
Proof.
  induction cs as [| c cs IH]; intros s s' Hinv Hrun; simpl in Hrun.
  - injection Hrun as <-. exact Hinv.
  - destruct (exec B N NDEBUG fuel s c) as [s1 |] eqn:Hex; [| discriminate Hrun].
    apply (IH s1 s'); [| exact Hrun].
    apply (exec_preserves fuel s s1 c); assumption.
Qed.

(** Every call of a sequential client goes through, but an attach above
    [W = 2 ^ 64 - N] and a read without a consumer. *)
Lemma exec_defined (s : client T) (c : call) :
  client_inv B N s ->
  (c = AttachReader -> writeIndex (pool_of s) <= readIndexMax N + 1) ->
  (c = NextReadableBuffer -> attached s) ->
  exists s', exec B N NDEBUG 1 s c = Some s'.
Proof.
  intros Hinv Hatt Hrd. destruct c; simpl.
  - rewrite attachReader_quiet; [eexists; reflexivity | apply Hinv |].
    apply Hatt. reflexivity.
  - eexists; reflexivity.
  - eexists; reflexivity.
  - specialize (Hrd eq_refl). unfold attached in Hrd.
    destruct (consumer s) as [cur |] eqn:Hcur; [| contradiction Hrd; reflexivity].
    destruct (read_attached s cur Hinv Hcur) as (st' & Hret & _).
    rewrite Hret. eexists; reflexivity.
Qed.

(** C4.  Along every sequence of calls of a sequential client on a fresh
    pool, [R <= W] holds whenever a consumer is attached and [W - R <= N]
    holds at every point; when [W - R = N] the producer is refused (the pool
    is full); and every call takes a state of the invariant to a state of
    the invariant. *)
Theorem counters_invariant (fuel : nat) (cs : list call) (s : client T) :
  run B N NDEBUG fuel (fresh T0 B N) cs = Some s ->
  (attached s -> readIndex (pool_of s) <= writeIndex (pool_of s)) /\
  writeIndex (pool_of s) - readIndex (pool_of s) <= N /\
  (writeIndex (pool_of s) - readIndex (pool_of s) = N ->
   admits N (pool_of s) = false) /\
  client_inv B N s /\
  (forall (s1 s2 : client T) (c : call),
     client_inv B N s1 -> exec B N NDEBUG fuel s1 c = Some s2 ->
     client_inv B N s2 /\ counters_inv N s2).
Proof.
  intros Hrun.
  assert (Hinv : client_inv B N s)
    by (apply (run_preserves fuel cs _ s fresh_inv Hrun)).
  destruct (client_inv_counters s Hinv) as [H1 H2].
  split; [exact H1 |]. split; [exact H2 |]. split; [| split; [exact Hinv |]].
  - intros Heq. destruct Hinv as ((HW & HR & _) & _).
    unfold U64.in_range in HW, HR. unfold admits.
    rewrite add64_small by (unfold U64.in_range; lia).
    apply Z.ltb_ge. lia.
  - intros s1 s2 c Hi Hex.
    pose proof (exec_preserves fuel s1 s2 c Hi Hex) as Hi2.
    split; [exact Hi2 | apply client_inv_counters, Hi2].
Qed.

(** C10.  In every sequence of calls of a sequential client on a fresh
    pool, a call of [nextReadableBuffer] by the attached consumer returns,
    and a slot it hands out is the slot of a logical index [i] with
    [R < i < W] for the counters of that moment, [i] being one more than the
    [R] the call leaves.  So [i >= 1]: the index handed out is never [0] and
    never the current [W], and the slot handed out is not the slot at the
    current [W].  It is the storage slot of index [0] exactly when [i] is a
    multiple of [N]. *)
Theorem readable_slot_index (fuel : nat) (cs : list call) (s : client T)
        (cur : option ptr) :
  0 < B ->
  run B N NDEBUG fuel (fresh T0 B N) cs = Some s ->
  consumer s = Some cur ->
  exists st' res,
    nextReadableBuffer B N NDEBUG (pool_of s) cur = Ret (st', res) /\
    forall p, res = Some p ->
      let i := readIndex st' + 1 in
      p = bufferAt B N i /\
      readIndex st' < i < writeIndex st' /\
      readIndex (pool_of s) < i /\
      1 <= i /\
      p <> bufferAt B N (writeIndex st') /\
      (p = bufferAt B N 0 <-> i mod N = 0).
Proof.
  intros HB Hrun Hcur.
  assert (Hinv : client_inv B N s)
    by (apply (run_preserves fuel cs _ s fresh_inv Hrun)).
  destruct (read_attached s cur Hinv Hcur)
    as (st' & Hret & HR' & HW' & _ & Hle & Hmax).
  destruct Hinv as ((HW & HR & _) & HWN & _).
  unfold U64.in_range in HW, HR. pose proof pool_size_bounds as HN.
  exists st'. eexists. split; [exact Hret |].
  intros p Hp. rewrite HR', HW'.
  set (r' := match cur with
             | Some _ => readIndex (pool_of s) + 1
             | None => readIndex (pool_of s)
             end) in *.
  assert (Hr : readIndex (pool_of s) <= r') by (subst r'; destruct cur; lia).
  rewrite Z.gtb_ltb in Hp.
  destruct (Z.ltb_spec (r' + 1) (writeIndex (pool_of s))) as [Hlt | Hge];
    [| discriminate Hp].
  injection Hp as <-. cbv zeta.
  split; [reflexivity |]. split; [lia |]. split; [lia |]. split; [lia |].
  split.
  - apply bufferAt_apart; [exact HB | lia].
  - rewrite !bufferAt_mod. rewrite (Z.mod_0_l N) by lia.
    split; intros H.
    + apply Z.mul_cancel_r in H; [exact H | lia].
    + rewrite H. reflexivity.
Qed.

(** ** The detached pool *)

Lemma producer_runs_snoc (k : nat) :
  forall st : WaitFreeBufferPool T,
  producer_runs B N (S k) st = fst (nextWritableBuffer B N (producer_runs B N k st)).
Proof.
  induction k as [| k IH]; intros st; [reflexivity |].
  change (producer_runs B N (S (S k)) st)
    with (producer_runs B N (S k) (fst (nextWritableBuffer B N st))).
  rewrite IH. reflexivity.
Qed.

(** With the sentinel in [R] the producer is admitted below [2 ^ 64 - 1]. *)
Lemma admits_detached (st : WaitFreeBufferPool T) :
  readIndex st = readIndexMax N ->
  admits N st = (writeIndex st <? U64.max).
Proof. intros HR. unfold admits. rewrite HR, readIndexMax_add. reflexivity. Qed.

Lemma producer_runs_detached (k : nat) :
  forall st : WaitFreeBufferPool T,
  wf st -> readIndex st = readIndexMax N ->
  writeIndex st + Z.of_nat k <= U64.max ->
  writeIndex (producer_runs B N k st) = writeIndex st + Z.of_nat k /\
  readIndex (producer_runs B N k st) = readIndexMax N /\
  overflowCount (producer_runs B N k st) = overflowCount st /\
  pool_data (producer_runs B N k st) = pool_data st.
Proof.
  induction k as [| k IH]; intros st Hwf HR Hle.
  - simpl. repeat split; try assumption. lia.
  - assert (Ha : admits N st = true).
    { rewrite admits_detached by exact HR. apply Z.ltb_lt. lia. }
    simpl. rewrite nextWritableBuffer_admitted by assumption. simpl.
    destruct (IH (store_writeIndex st (writeIndex st + 1))) as (H1 & H2 & H3 & H4).
    + pose proof (nextWritableBuffer_wf st Hwf) as Hwf'.
      rewrite nextWritableBuffer_admitted in Hwf' by assumption. exact Hwf'.
    + exact HR.
    + simpl. lia.
    + simpl in *. repeat split; try assumption. lia.
Qed.

Lemma new_pool_wf : wf (new_pool T0 B N).
Proof. apply fresh_inv. Qed.

(** C7.  The constructor leaves [W = 0], the overflow counter at [0] and the
    sentinel [2 ^ 64 - 1 - N] in [R].  In a run of at most [2 ^ 64 - 1] calls
    of [nextWritableBuffer] on the pool while it stays detached, every call
    is admitted and adds one to [W], and the overflow counter stays [0]. *)
Theorem detached_writes (k : nat) :
  Z.of_nat k <= 2 ^ 64 - 1 ->
  writeIndex (new_pool T0 B N) = 0 /\
  overflowCount (new_pool T0 B N) = 0 /\
  readIndex (new_pool T0 B N) = readIndexMax N /\
  readIndexMax N = 2 ^ 64 - 1 - N /\
  (forall j, (j <= k)%nat ->
     writeIndex (producer_runs B N j (new_pool T0 B N)) = Z.of_nat j /\
     readIndex (producer_runs B N j (new_pool T0 B N)) = readIndexMax N /\
     overflowCount (producer_runs B N j (new_pool T0 B N)) = 0) /\
  (forall j, (j < k)%nat ->
     let st := producer_runs B N j (new_pool T0 B N) in
     admits N st = true /\
     writeIndex (fst (nextWritableBuffer B N st)) = writeIndex st + 1).
Proof.
  intros Hk.
  assert (Hruns : forall j, (j <= k)%nat ->
     writeIndex (producer_runs B N j (new_pool T0 B N)) = Z.of_nat j /\
     readIndex (producer_runs B N j (new_pool T0 B N)) = readIndexMax N /\
     overflowCount (producer_runs B N j (new_pool T0 B N)) = 0).
  { intros j Hj.
    destruct (producer_runs_detached j (new_pool T0 B N) new_pool_wf eq_refl)
      as (H1 & H2 & H3 & _).
    - simpl. unfold U64.max. lia.
    - rewrite H1, H2, H3. simpl. auto. }
  split; [reflexivity |]. split; [reflexivity |]. split; [reflexivity |].
  split; [apply readIndexMax_eq |]. split; [exact Hruns |].
  intros j Hj st. subst st.
  destruct (Hruns j ltac:(lia)) as (H1 & H2 & _).
  assert (Ha : admits N (producer_runs B N j (new_pool T0 B N)) = true).
  { rewrite admits_detached by exact H2. apply Z.ltb_lt.
    rewrite H1. unfold U64.max. lia. }
  split; [exact Ha |].
  rewrite nextWritableBuffer_admitted;
    [reflexivity | apply producer_runs_wf, new_pool_wf | exact Ha].
Qed.

(** ** Pool sizes, slots and pointers *)

(** X1.  On [unsigned] values [isPoolSizeValid] accepts exactly the powers
    of two from [2] to [2 ^ 31]: not [0], not [1], nothing with two bits
    set. *)
Theorem isPoolSizeValid_iff (n : Z) :
  U32.in_range n ->
  isPoolSizeValid n = true <-> exists k, 1 <= k <= 31 /\ n = 2 ^ k.
Proof.
  intros Hn. split; [apply valid_pool_size, Hn |].
  intros [k [Hk ->]]. unfold isPoolSizeValid.
  assert (H2 : 2 <= 2 ^ k).
  { change 2 with (2 ^ 1) at 1. apply Z.pow_le_mono_r; lia. }
  assert (H31 : 2 ^ k <= 2 ^ 31) by (apply Z.pow_le_mono_r; lia).
  apply andb_true_iff. split; [apply Z.ltb_lt; lia |].
  apply Z.eqb_eq.
  rewrite sub32_small by (unfold U32.in_range, U32.max; lia).
  replace (2 ^ k - 1) with (Z.ones k) by (rewrite Z.ones_equiv; lia).
  rewrite Z.land_ones by lia. apply Z_mod_same_full.
Qed.

Lemma storage_size_eq : B * N <= U32.max -> storage_size B N = B * N.
Proof.
  intros Hle. pose proof pool_size_bounds as HN.
  unfold U32.in_range in B_range.
  unfold storage_size, U32.mul, U32.wrap, U32.modulus.
  apply Z.mod_small. unfold U32.max in *. nia.
Qed.

Lemma bufferAt_in_storage (i : Z) :
  B * N <= U32.max -> in_storage B N (bufferAt B N i).
Proof.
  intros Hle. unfold in_storage. rewrite storage_size_eq by assumption.
  rewrite bufferAt_mod. pose proof pool_size_bounds as HN.
  pose proof (Z.mod_pos_bound i N ltac:(lia)) as Hm.
  unfold U32.in_range in B_range. nia.
Qed.

Lemma nextReadableBuffer_result (st st' : WaitFreeBufferPool T)
      (prev res : option ptr) :
  nextReadableBuffer B N NDEBUG st prev = Ret (st', res) ->
  writeIndex st' = writeIndex st /\
  pool_data st' = pool_data st /\
  res = readable_from B N st (readIndex st').
Proof.
  unfold nextReadableBuffer. destruct prev as [p |].
  - destruct (cassert NDEBUG (p =? bufferAt B N (U64.incr (readIndex st))));
      simpl; [| discriminate].
    intros Hres. injection Hres as <- <-. auto.
  - intros Hres. injection Hres as <- <-. auto.
Qed.

(** X2.  When [bufferSize * poolSize] fits [unsigned], every pointer the
    pool gives out ([nextWritableBuffer], [nextReadableBuffer],
    [peekWithDataRace]) has its [bufferSize] elements inside the array of
    [bufferSize * poolSize] elements, for every state of the pool. *)
Theorem returned_pointers_in_storage (st : WaitFreeBufferPool T) :
  B * N <= U32.max ->
  storage_size B N = B * N /\
  in_storage B N (snd (nextWritableBuffer B N st)) /\
  in_storage B N (peekWithDataRace B N st) /\
  (forall prev st' p,
     nextReadableBuffer B N NDEBUG st prev = Ret (st', Some p) ->
     in_storage B N p).
Proof.
  intros Hle. split; [apply storage_size_eq, Hle |]. split; [| split].
  - unfold nextWritableBuffer.
    destruct (writeIndex st <? U64.add (readIndex st) N); simpl;
      apply bufferAt_in_storage, Hle.
  - apply bufferAt_in_storage, Hle.
  - intros prev st' p Hret.
    destruct (nextReadableBuffer_result _ _ _ _ Hret) as (_ & _ & Hres).
    unfold readable_from in Hres.
    destruct (writeIndex st >? U64.add (readIndex st') 1); [| discriminate Hres].
    injection Hres as ->. apply bufferAt_in_storage, Hle.
Qed.

Lemma bufferAt_disjoint (i j : Z) :
  0 < B -> i mod N <> j mod N ->
  bufferAt B N i + B <= bufferAt B N j \/ bufferAt B N j + B <= bufferAt B N i.
Proof.
  intros HB Hne. pose proof pool_size_bounds as HN. rewrite !bufferAt_mod.
  pose proof (Z.mod_pos_bound i N ltac:(lia)).
  pose proof (Z.mod_pos_bound j N ltac:(lia)). nia.
Qed.

(** X3.  Two logical indices have the same slot exactly when they are
    congruent modulo [N]; the slots of two indices that are not are
    disjoint runs of [B] elements; and the slot of [i + N] is the slot of
    [i]. *)
Theorem bufferAt_slots (i j : Z) :
  0 < B ->
  (bufferAt B N i = bufferAt B N j <-> i mod N = j mod N) /\
  (i mod N <> j mod N ->
   bufferAt B N i + B <= bufferAt B N j \/ bufferAt B N j + B <= bufferAt B N i) /\
  bufferAt B N (i + N) = bufferAt B N i.
Proof.
  intros HB. pose proof pool_size_bounds as HN. rewrite !bufferAt_mod.
  split; [| split].
  - split; intros H.
    + apply Z.mul_cancel_r in H; [exact H | lia].
    + rewrite H. reflexivity.
  - intros Hne. nia.
  - f_equal. rewrite <- (Z.mul_1_l N) at 1. apply Z.mod_add. lia.
Qed.

Lemma nextWritableBuffer_pool_data (st : WaitFreeBufferPool T) :
  pool_data (fst (nextWritableBuffer B N st)) = pool_data st.
Proof.
  unfold nextWritableBuffer.
  destruct (writeIndex st <? U64.add (readIndex st) N); reflexivity.
Qed.

(** X4.  [peekWithDataRace] is the producer's slot: right after a call of
    [nextWritableBuffer] it returns the pointer that call returned, a
    refused call returns the pointer [peekWithDataRace] gave before it, and
    no call of the consumer ([nextReadableBuffer], [detachReader],
    [attachReader]) changes what it returns. *)
Theorem peekWithDataRace_is_producer_slot (st : WaitFreeBufferPool T) :
  wf st ->
  peekWithDataRace B N (fst (nextWritableBuffer B N st)) =
    snd (nextWritableBuffer B N st) /\
  (admits N st = false ->
   snd (nextWritableBuffer B N st) = peekWithDataRace B N st) /\
  (forall prev st' res,
     nextReadableBuffer B N NDEBUG st prev = Ret (st', res) ->
     peekWithDataRace B N st' = peekWithDataRace B N st) /\
  peekWithDataRace B N (fst (detachReader N st)) = peekWithDataRace B N st /\
  (forall fuel st' rw,
     attachReader N fuel st = Some (st', rw) ->
     peekWithDataRace B N st' = peekWithDataRace B N st).
Proof.
  intros Hwf. unfold peekWithDataRace.
  split; [| split; [| split; [| split]]].
  - symmetry. apply nextWritableBuffer_returns_current, Hwf.
  - intros Ha. rewrite nextWritableBuffer_full by assumption. reflexivity.
  - intros prev st' res Hret.
    destruct (nextReadableBuffer_result _ _ _ _ Hret) as (-> & _). reflexivity.
  - reflexivity.
  - intros fuel st' rw Hres.
    destruct (attachReader_result fuel st st' rw Hres) as [-> _]. reflexivity.
Qed.

(** ** A full pool, and a pool without consumer *)

Lemma refused_stays_refused (k : nat) :
  forall st : WaitFreeBufferPool T,
  admits N st = false ->
  writeIndex (producer_runs B N k st) = writeIndex st /\
  readIndex (producer_runs B N k st) = readIndex st /\
  pool_data (producer_runs B N k st) = pool_data st /\
  overflowCount (producer_runs B N k st) =
    Nat.iter k U64.incr (overflowCount st).
Proof.
  induction k as [| k IH]; intros st Ha; [simpl; auto |].
  rewrite producer_runs_snoc.
  destruct (IH st Ha) as (HW & HR & HD & HO).
  assert (Ha' : admits N (producer_runs B N k st) = false).
  { unfold admits in *. rewrite HW, HR. exact Ha. }
  rewrite nextWritableBuffer_full by exact Ha'. simpl.
  rewrite HO. auto.
Qed.

(** X5.  Calls of [nextWritableBuffer] on a pool that refuses the producer
    change nothing but the overflow counter: after any number of them [W],
    [R] and the storage are as before, the pool still refuses, each call
    has returned the slot of the unchanged [W], and the counter has gone up
    by the number of calls (while that stays within 64 bits). *)
Theorem refused_calls_repeat (k : nat) (st : WaitFreeBufferPool T) :
  wf st -> admits N st = false ->
  writeIndex (producer_runs B N k st) = writeIndex st /\
  readIndex (producer_runs B N k st) = readIndex st /\
  pool_data (producer_runs B N k st) = pool_data st /\
  admits N (producer_runs B N k st) = false /\
  snd (nextWritableBuffer B N (producer_runs B N k st)) =
    bufferAt B N (writeIndex st) /\
  (overflowCount st + Z.of_nat k <= U64.max ->
   overflowCount (producer_runs B N k st) = overflowCount st + Z.of_nat k).
Proof.
  intros Hwf Ha.
  destruct (refused_stays_refused k st Ha) as (HW & HR & HD & HO).
  assert (Ha' : admits N (producer_runs B N k st) = false).
  { unfold admits in *. rewrite HW, HR. exact Ha. }
  split; [exact HW |]. split; [exact HR |]. split; [exact HD |].
  split; [exact Ha' |]. split.
  - rewrite nextWritableBuffer_full by exact Ha'. simpl. rewrite HW. reflexivity.
  - rewrite HO. clear HO Ha' HW HR HD.
    destruct Hwf as (_ & _ & HO). unfold U64.in_range in HO.
    induction k as [| k IH]; intros Hle; [simpl; lia |].
    rewrite Nat2Z.inj_succ in *. simpl. rewrite IH by lia.
    rewrite incr64_small by lia. lia.
Qed.

(** X6.  [detachReader] sets the producer free, whatever the consumer left
    behind: from any pool, full or not, the [k] producer calls that follow a
    detach are all admitted and take [W] to [W + k], for every [k] with
    [W + k <= 2 ^ 64 - 1]; the overflow counter, [R] (the sentinel) and the
    storage stay as the detach left them. *)
Theorem detach_unblocks (k : nat) (st : WaitFreeBufferPool T) :
  wf st -> writeIndex st + Z.of_nat k <= U64.max ->
  snd (detachReader N st) = (readIndex st, writeIndex st) /\
  writeIndex (producer_runs B N k (fst (detachReader N st))) =
    writeIndex st + Z.of_nat k /\
  readIndex (producer_runs B N k (fst (detachReader N st))) = readIndexMax N /\
  overflowCount (producer_runs B N k (fst (detachReader N st))) =
    overflowCount st /\
  pool_data (producer_runs B N k (fst (detachReader N st))) = pool_data st.
Proof.
  intros Hwf Hle. split; [reflexivity |].
  apply (producer_runs_detached k (fst (detachReader N st))).
  - simpl. apply store_readIndex_wf; [exact Hwf | apply readIndexMax_range].
  - reflexivity.
  - exact Hle.
Qed.

(** X7.  A consumer that attaches sees nothing of the past: for
    [W <= 2 ^ 64 - N] the sequential [attachReader] returns
    [(max (W - 1, 0), W)] and the [nextReadableBuffer(nullptr)] that follows
    returns [nullptr].  After the producer's next call, which is admitted,
    [nextReadableBuffer(nullptr)] returns the slot of the index [W], the one
    the producer was in when the consumer attached; but still [nullptr] when
    the consumer attached at [W = 0]. *)
Theorem attach_then_read (fuel : nat) (st : WaitFreeBufferPool T) :
  wf st -> writeIndex st <= 2 ^ 64 - N ->
  let st1 := store_readIndex st (Z.max (writeIndex st - 1) 0) in
  let st2 := fst (nextWritableBuffer B N st1) in
  attachReader N (S fuel) st =
    Some (st1, (Z.max (writeIndex st - 1) 0, writeIndex st)) /\
  nextReadableBuffer B N NDEBUG st1 None = Ret (st1, None) /\
  admits N st1 = true /\
  writeIndex st2 = writeIndex st + 1 /\
  nextReadableBuffer B N NDEBUG st2 None =
    Ret (st2, if writeIndex st =? 0 then None
              else Some (bufferAt B N (writeIndex st))).
Proof.
  intros Hwf Hle st1 st2. pose proof pool_size_bounds as HN.
  pose proof Hwf as (HW & HR & HO). unfold U64.in_range in HW.
  assert (Hwf1 : wf st1).
  { apply store_readIndex_wf; [exact Hwf |]. unfold U64.in_range, U64.max in *. lia. }
  assert (Ha : admits N st1 = true).
  { unfold admits, st1; simpl.
    rewrite add64_small by (unfold U64.in_range, U64.max; lia).
    apply Z.ltb_lt. lia. }
  split.
  { apply attachReader_quiet; [exact Hwf |].
    rewrite readIndexMax_eq. unfold U64.max. lia. }
  split.
  { rewrite nextReadableBuffer_none, readable_from_slot. unfold st1; simpl.
    rewrite add64_small by (unfold U64.in_range, U64.max; lia).
    rewrite Z.gtb_ltb.
    destruct (Z.ltb_spec (Z.max (writeIndex st - 1) 0 + 1) (writeIndex st));
      [lia | reflexivity]. }
  split; [exact Ha |].
  subst st2. rewrite nextWritableBuffer_admitted by assumption.
  split; [reflexivity |].
  rewrite nextReadableBuffer_none, readable_from_slot. unfold st1; simpl.
  rewrite add64_small by (unfold U64.in_range, U64.max; lia).
  rewrite Z.gtb_ltb.
  destruct (Z.eqb_spec (writeIndex st) 0) as [H0 | Hne].
  - rewrite H0. reflexivity.
  - destruct (Z.ltb_spec (Z.max (writeIndex st - 1) 0 + 1) (writeIndex st + 1));
      [| lia].
    rewrite Z.max_l by lia.
    replace (writeIndex st - 1 + 1) with (writeIndex st) by lia. reflexivity.
Qed.

(** ** Reading and writing slots of the storage *)

Lemma written_then_read {A : Type} (p b : nat) (xs d : list A) :
  length xs = b -> (p + b <= length d)%nat ->
  firstn b (skipn p (firstn p d ++ xs ++ skipn (p + length xs) d)) = xs.
Proof.
  intros Hxs Hd.
  assert (Hp : length (firstn p d) = p) by (rewrite length_firstn; lia).
  rewrite skipn_app, Hp, Nat.sub_diag, skipn_0.
  rewrite skipn_all2 by lia. simpl.
  rewrite firstn_app, Hxs, Nat.sub_diag, firstn_0, app_nil_r.
  rewrite <- Hxs. apply firstn_all.
Qed.

Lemma written_beside_read {A : Type} (p q b : nat) (xs d : list A) :
  length xs = b -> (p + b <= length d)%nat ->
  (q + b <= p \/ p + b <= q)%nat ->
  firstn b (skipn q (firstn p d ++ xs ++ skipn (p + length xs) d)) =
  firstn b (skipn q d).
Proof.
  intros Hxs Hd Hpq.
  assert (Hp : length (firstn p d) = p) by (rewrite length_firstn; lia).
  rewrite skipn_app, Hp. destruct Hpq as [Hlow | Hhigh].
  - replace (q - p)%nat with O by lia. rewrite skipn_0.
    rewrite firstn_app, length_skipn, Hp.
    replace (b - (p - q))%nat with O by lia. rewrite firstn_0, app_nil_r.
    rewrite skipn_firstn_comm, firstn_firstn.
    replace (Nat.min b (p - q)) with b by lia. reflexivity.
  - rewrite (skipn_all2 (firstn p d)) by lia. simpl.
    rewrite skipn_app, Hxs. rewrite (skipn_all2 xs) by lia. simpl.
    rewrite skipn_skipn. do 2 f_equal. lia.
Qed.

Lemma written_length {A : Type} (p b : nat) (xs d : list A) :
  length xs = b -> (p + b <= length d)%nat ->
  length (firstn p d ++ xs ++ skipn (p + length xs) d) = length d.
Proof.
  intros Hxs Hd. rewrite !length_app, length_firstn, length_skipn. lia.
Qed.

Lemma index_range_succ (a : Z) (n : nat) :
  index_range a (S n) = a :: index_range (a + 1) n.
Proof.
  unfold index_range. simpl. f_equal; [lia |].
  rewrite <- seq_shift, map_map. apply map_ext. intros j. lia.
Qed.


Lemma index_range_bounds (a : Z) (n : nat) (i : Z) :
  In i (index_range a n) -> a <= i < a + Z.of_nat n.
Proof.
  unfold index_range. rewrite in_map_iff. intros [j [<- Hj]].
  apply in_seq in Hj. lia.
Qed.


Lemma slot_read_write_same (p : ptr) (xs d : list T) :
  0 <= p -> Z.of_nat (length xs) = B -> p + B <= Z.of_nat (length d) ->
  slot_read B p (slot_write p xs d) = xs.
Proof.
  intros Hp Hxs Hd. unfold slot_read, slot_write.
  apply written_then_read; lia.
Qed.

Lemma slot_read_write_other (p q : ptr) (xs d : list T) :
  0 <= p -> 0 <= q -> Z.of_nat (length xs) = B ->
  p + B <= Z.of_nat (length d) -> q + B <= p \/ p + B <= q ->
  slot_read B q (slot_write p xs d) = slot_read B q d.
Proof.
  intros Hp Hq Hxs Hd Hpq. unfold slot_read, slot_write.
  apply written_beside_read; lia.
Qed.

Lemma slot_write_length (p : ptr) (xs d : list T) :
  0 <= p -> Z.of_nat (length xs) = B -> p + B <= Z.of_nat (length d) ->
  length (slot_write p xs d) = length d.
Proof.
  intros Hp Hxs Hd. unfold slot_write.
  apply written_length with (b := Z.to_nat B); lia.
Qed.

(** ** The consumer drains *)

Lemma drain_unfold (fuel : nat) (st : WaitFreeBufferPool T) (cur : option ptr) :
  drain B N NDEBUG (S fuel) st cur =
  match nextReadableBuffer B N NDEBUG st cur with
  | Aborted => None
  | Ret (st', None) => Some (st', [])
  | Ret (st', Some p) =>
      match drain B N NDEBUG fuel st' (Some p) with
      | Some (st'', seen) => Some (st'', slot_read B p (pool_data st') :: seen)
      | None => None
      end
  end.
Proof. reflexivity. Qed.

Lemma drain_from_slot (n : nat) :
  forall (st : WaitFreeBufferPool T) (fuel : nat),
  wf st -> readIndex st + 2 + Z.of_nat n = writeIndex st -> (n < fuel)%nat ->
  drain B N NDEBUG fuel st (Some (bufferAt B N (readIndex st + 1))) =
  Some (store_readIndex st (writeIndex st - 1),
        map (slot_at B N st) (index_range (readIndex st + 2) n)).
Proof.
  induction n as [| n IH]; intros st fuel Hwf Hn Hfuel;
    (destruct fuel as [| fuel]; [lia |]);
    pose proof Hwf as (HW & HR & HO); unfold U64.in_range in HW, HR;
    assert (Hi : U64.incr (readIndex st) = readIndex st + 1)
      by (apply incr64_small; lia);
    rewrite drain_unfold, nextReadableBuffer_some
      by (right; intros q Hq; injection Hq as <-; rewrite Hi; reflexivity);
    rewrite Hi, readable_from_slot;
    rewrite add64_small by (unfold U64.in_range; lia);
    rewrite Z.gtb_ltb.
  - destruct (Z.ltb_spec (readIndex st + 1 + 1) (writeIndex st)); [lia |].
    replace (writeIndex st - 1) with (readIndex st + 1) by lia. reflexivity.
  - destruct (Z.ltb_spec (readIndex st + 1 + 1) (writeIndex st)); [| lia].
    specialize (IH (store_readIndex st (readIndex st + 1)) fuel).
    simpl in IH. rewrite IH.
    + rewrite index_range_succ.
      replace (readIndex st + 1 + 2) with (readIndex st + 2 + 1) by lia.
      replace (readIndex st + 1 + 1) with (readIndex st + 2) by lia.
      reflexivity.
    + apply store_readIndex_wf; [exact Hwf | unfold U64.in_range; lia].
    + lia.
    + lia.
Qed.

Lemma drain_published (fuel : nat) (st : WaitFreeBufferPool T) :
  wf st -> readIndex st < U64.max ->
  (Z.to_nat (writeIndex st - readIndex st - 1) < fuel)%nat ->
  let st' := if readIndex st + 1 <? writeIndex st
             then store_readIndex st (writeIndex st - 1) else st in
  drain B N NDEBUG fuel st None =
  Some (st', map (slot_at B N st)
               (index_range (readIndex st + 1)
                            (Z.to_nat (writeIndex st - readIndex st - 1)))) /\
  nextReadableBuffer B N NDEBUG st' None = Ret (st', None).
Proof.
  intros Hwf Hmax Hfuel st'. subst st'.
  pose proof Hwf as (HW & HR & HO). unfold U64.in_range in HW, HR.
  destruct fuel as [| fuel]; [lia |].
  rewrite drain_unfold, nextReadableBuffer_none, readable_from_slot.
  rewrite add64_small by (unfold U64.in_range; lia). rewrite Z.gtb_ltb.
  destruct (Z.ltb_spec (readIndex st + 1) (writeIndex st)) as [Hlt | Hge].
  - split.
    + rewrite (drain_from_slot (Z.to_nat (writeIndex st - readIndex st - 2)))
        by (try exact Hwf; lia).
      replace (Z.to_nat (writeIndex st - readIndex st - 1))
        with (S (Z.to_nat (writeIndex st - readIndex st - 2))) by lia.
      rewrite index_range_succ. simpl.
      replace (readIndex st + 1 + 1) with (readIndex st + 2) by lia.
      reflexivity.
    + rewrite nextReadableBuffer_none, readable_from_slot. simpl.
      rewrite add64_small by (unfold U64.in_range; lia). rewrite Z.gtb_ltb.
      destruct (Z.ltb_spec (writeIndex st - 1 + 1) (writeIndex st)); [lia |].
      reflexivity.
  - split.
    + replace (Z.to_nat (writeIndex st - readIndex st - 1)) with O by lia.
      reflexivity.
    + rewrite nextReadableBuffer_none, readable_from_slot.
      rewrite add64_small by (unfold U64.in_range; lia). rewrite Z.gtb_ltb.
      destruct (Z.ltb_spec (readIndex st + 1) (writeIndex st)); [lia |].
      reflexivity.
Qed.

(** X8.  A consumer that calls [nextReadableBuffer] until it gets
    [nullptr], first with [nullptr] and then with the slot it was given,
    reads the slots of the indices [R + 1], ..., [W - 1], each once and in
    that order; no assertion fails on the way.  It leaves [R = W - 1] when
    it read a slot and [R] as it was when there was none, [W], the overflow
    counter and the storage untouched, and the
    [nextReadableBuffer(nullptr)] after that returns [nullptr]. *)
Theorem drain_reads_published (fuel : nat) (st : WaitFreeBufferPool T) :
  wf st -> readIndex st < U64.max ->
  (Z.to_nat (writeIndex st - readIndex st - 1) < fuel)%nat ->
  exists st',
    drain B N NDEBUG fuel st None =
    Some (st', map (slot_at B N st)
                 (index_range (readIndex st + 1)
                              (Z.to_nat (writeIndex st - readIndex st - 1)))) /\
    readIndex st' = Z.max (readIndex st) (writeIndex st - 1) /\
    writeIndex st' = writeIndex st /\
    overflowCount st' = overflowCount st /\
    pool_data st' = pool_data st /\
    nextReadableBuffer B N NDEBUG st' None = Ret (st', None).
Proof.
  intros Hwf Hmax Hfuel.
  destruct (drain_published fuel st Hwf Hmax Hfuel) as [Hd Hnull].
  eexists. split; [exact Hd |].
  destruct (Z.ltb_spec (readIndex st + 1) (writeIndex st)) as [Hlt | Hge].
  - cbn [store_readIndex readIndex writeIndex overflowCount pool_data].
    split; [lia |]. split; [reflexivity |]. split; [reflexivity |].
    split; [reflexivity | exact Hnull].
  - split; [lia |]. split; [reflexivity |]. split; [reflexivity |].
    split; [reflexivity | exact Hnull].
Qed.

(** ** Records written and records read *)

Lemma mod_apart (i j : Z) : 0 < j - i < N -> i mod N <> j mod N.
Proof.
  intros Hij Heq. pose proof pool_size_bounds as HN.
  assert (Hd : (j - i) mod N = 0).
  { rewrite Zminus_mod, Heq, Z.sub_diag. apply Z.mod_0_l. lia. }
  rewrite Z.mod_small in Hd by lia. lia.
Qed.

Lemma write_next_admitted (xs : list T) (st : WaitFreeBufferPool T) :
  wf st -> admits N st = true -> 0 < B -> B * N <= U32.max ->
  storage_ok B N st -> Z.of_nat (length xs) = B ->
  let st' := fst (write_next B N xs st) in
  snd (write_next B N xs st) = bufferAt B N (writeIndex st + 1) /\
  wf st' /\ storage_ok B N st' /\
  writeIndex st' = writeIndex st + 1 /\
  readIndex st' = readIndex st /\
  overflowCount st' = overflowCount st /\
  slot_at B N st' (writeIndex st + 1) = xs /\
  (forall i, i mod N <> (writeIndex st + 1) mod N ->
             slot_at B N st' i = slot_at B N st i).
Proof.
  intros Hwf Ha HB Hfit Hst Hxs st'. subst st'.
  pose proof (nextWritableBuffer_wf st Hwf) as Hwf'.
  unfold write_next. rewrite nextWritableBuffer_admitted in * by assumption.
  simpl in *. unfold storage_ok in *. simpl.
  destruct (bufferAt_in_storage (writeIndex st + 1) Hfit) as [Hp0 Hp1].
  rewrite <- Hst in Hp1.
  split; [reflexivity |]. split; [exact Hwf' |].
  split; [rewrite slot_write_length by assumption; exact Hst |].
  split; [reflexivity |]. split; [reflexivity |]. split; [reflexivity |].
  unfold slot_at; simpl. split.
  - apply slot_read_write_same; assumption.
  - intros i Hi.
    destruct (bufferAt_in_storage i Hfit) as [Hq0 _].
    apply slot_read_write_other; try assumption.
    destruct (bufferAt_disjoint i (writeIndex st + 1) HB Hi);
      [left | right]; assumption.
Qed.

Lemma write_all_cons (xs : list T) (rs : list (list T)) (st : WaitFreeBufferPool T) :
  write_all B N (xs :: rs) st =
  (fst (write_all B N rs (fst (write_next B N xs st))),
   snd (write_next B N xs st) :: snd (write_all B N rs (fst (write_next B N xs st)))).
Proof.
  simpl. destruct (write_next B N xs st) as [st1 p]. simpl.
  destruct (write_all B N rs st1) as [st2 ps]. reflexivity.
Qed.

Lemma write_all_window (rs : list (list T)) :
  forall st : WaitFreeBufferPool T,
  wf st -> 0 < B -> B * N <= U32.max -> storage_ok B N st ->
  Forall (fun xs => Z.of_nat (length xs) = B) rs ->
  readIndex st <= readIndexMax N ->
  writeIndex st + Z.of_nat (length rs) <= readIndex st + N ->
  let st' := fst (write_all B N rs st) in
  wf st' /\ storage_ok B N st' /\
  writeIndex st' = writeIndex st + Z.of_nat (length rs) /\
  readIndex st' = readIndex st /\
  overflowCount st' = overflowCount st /\
  snd (write_all B N rs st) =
    map (bufferAt B N) (index_range (writeIndex st + 1) (length rs)) /\
  (forall i,
     writeIndex st + Z.of_nat (length rs) - N < i <=
     writeIndex st + Z.of_nat (length rs) ->
     slot_at B N st' i =
     if i <=? writeIndex st then slot_at B N st i
     else nth (Z.to_nat (i - writeIndex st - 1)) rs []).
Proof.
  induction rs as [| xs rs IH]; intros st Hwf HB Hfit Hst Hlen HR Hroom st'.
  - subst st'. simpl in Hroom |- *.
    repeat (split; [first [assumption | reflexivity | lia] |]).
    intros i Hi. destruct (Z.leb_spec i (writeIndex st)); [reflexivity | lia].
  - subst st'. rewrite write_all_cons. simpl fst. simpl snd.
    apply Forall_cons_iff in Hlen. destruct Hlen as [Hxs Hrs].
    change (length (xs :: rs)) with (S (length rs)) in Hroom |- *.
    rewrite Nat2Z.inj_succ in Hroom |- *.
    assert (Ha : admits N st = true).
    { apply admits_iff; [exact Hwf | exact HR | lia]. }
    destruct (write_next_admitted xs st Hwf Ha HB Hfit Hst Hxs)
      as (Hp & Hwf1 & Hst1 & HW1 & HR1 & HO1 & Hnew & Hold).
    destruct (IH (fst (write_next B N xs st)) Hwf1 HB Hfit Hst1 Hrs)
      as (Hwf2 & Hst2 & HW2 & HR2 & HO2 & Hps & Hslots);
      [rewrite HR1; exact HR | rewrite HW1, HR1; lia |].
    split; [exact Hwf2 |]. split; [exact Hst2 |].
    split; [rewrite HW2, HW1; lia |]. split; [rewrite HR2; exact HR1 |].
    split; [rewrite HO2; exact HO1 |]. split.
    { rewrite Hp, Hps, HW1, index_range_succ. reflexivity. }
    intros i Hi. rewrite Hslots by (rewrite HW1; lia). rewrite HW1.
    destruct (Z.leb_spec i (writeIndex st + 1)) as [Hle | Hgt].
    + destruct (Z.leb_spec i (writeIndex st)) as [Hle' | Hgt'].
      * apply Hold, mod_apart. lia.
      * replace i with (writeIndex st + 1) by lia. rewrite Hnew.
        replace (writeIndex st + 1 - writeIndex st - 1) with 0 by lia.
        reflexivity.
    + destruct (Z.leb_spec i (writeIndex st)); [lia |].
      replace (Z.to_nat (i - writeIndex st - 1))
        with (S (Z.to_nat (i - (writeIndex st + 1) - 1))) by lia.
      reflexivity.
Qed.

(** X9.  While the pool has room, nothing the producer writes is lost or
    moved.  For a pool with [R] up to the sentinel and records of [B]
    elements, [k] calls of [nextWritableBuffer], each followed by the
    record written through the pointer returned, with [W + k <= R + N]:
    no call is refused, [W] ends at [W + k], the pointers returned are the
    slots of [W + 1], ..., [W + k], the slot of [W + j] holds the [j]-th
    record (for the last [N] of them, which is all of them when [R <= W]),
    and of the last [N] indices those up to [W] have slots that hold what
    they held. *)
Theorem write_all_keeps_records (rs : list (list T)) (st : WaitFreeBufferPool T) :
  wf st -> 0 < B -> B * N <= U32.max -> storage_ok B N st ->
  Forall (fun xs => Z.of_nat (length xs) = B) rs ->
  readIndex st <= readIndexMax N ->
  writeIndex st + Z.of_nat (length rs) <= readIndex st + N ->
  let st' := fst (write_all B N rs st) in
  writeIndex st' = writeIndex st + Z.of_nat (length rs) /\
  readIndex st' = readIndex st /\
  overflowCount st' = overflowCount st /\
  snd (write_all B N rs st) =
    map (bufferAt B N) (index_range (writeIndex st + 1) (length rs)) /\
  (forall j, (j < length rs)%nat -> Z.of_nat (length rs) - Z.of_nat j <= N ->
     slot_at B N st' (writeIndex st + 1 + Z.of_nat j) = nth j rs []) /\
  (forall i,
     writeIndex st + Z.of_nat (length rs) - N < i <= writeIndex st ->
     slot_at B N st' i = slot_at B N st i) /\
  wf st' /\ storage_ok B N st'.
Proof.
  intros Hwf HB Hfit Hst Hlen HR Hroom st'. subst st'.
  destruct (write_all_window rs st Hwf HB Hfit Hst Hlen HR Hroom)
    as (Hwf' & Hst' & HW & HR' & HO & Hps & Hslots).
  split; [exact HW |]. split; [exact HR' |]. split; [exact HO |].
  split; [exact Hps |]. split; [| split; [| split; [exact Hwf' | exact Hst']]].
  - intros j Hj Hlast. rewrite Hslots by lia.
    destruct (Z.leb_spec (writeIndex st + 1 + Z.of_nat j) (writeIndex st));
      [lia |].
    f_equal. lia.
  - intros i Hi. rewrite Hslots by lia.
    destruct (Z.leb_spec i (writeIndex st)); [reflexivity | lia].
Qed.


(** X11.  Producer and consumer in lockstep never overflow.  From a pool
    with [W = R + 1], if after every record the producer writes the consumer
    drains, then each drain reads exactly one slot: the first one what the
    producer's slot held at the start, each later one the record written the
    round before.  After [k] rounds [W] and [R] are [k] further and the
    overflow counter is unchanged. *)
Theorem lockstep_delivers (fuel : nat) (rs : list (list T)) :
  forall st : WaitFreeBufferPool T,
  wf st -> 0 < B -> B * N <= U32.max -> storage_ok B N st ->
  Forall (fun xs => Z.of_nat (length xs) = B) rs ->
  writeIndex st = readIndex st + 1 ->
  readIndex st + Z.of_nat (length rs) <= readIndexMax N ->
  (2 <= fuel)%nat ->
  exists st',
    lockstep B N NDEBUG fuel rs st =
    Some (st', map (fun xs => [xs])
                   (removelast (slot_at B N st (writeIndex st) :: rs))) /\
    writeIndex st' = writeIndex st + Z.of_nat (length rs) /\
    readIndex st' = readIndex st + Z.of_nat (length rs) /\
    overflowCount st' = overflowCount st.
Proof.
  induction rs as [| xs rs IH]; intros st Hwf HB Hfit Hst Hlen HWR HR Hfuel.
  - exists st. simpl. repeat split; lia.
  - apply Forall_cons_iff in Hlen. destruct Hlen as [Hxs Hrs].
    change (length (xs :: rs)) with (S (length rs)) in HR |- *.
    rewrite Nat2Z.inj_succ in HR |- *.
    pose proof Hwf as (HW & HRr & _). unfold U64.in_range in HW, HRr.
    pose proof pool_size_bounds as HN.
    assert (HRmax : readIndexMax N = U64.max - N) by apply readIndexMax_eq.
    assert (Ha : admits N st = true).
    { apply admits_iff; [exact Hwf | lia | lia]. }
    destruct (write_next_admitted xs st Hwf Ha HB Hfit Hst Hxs)
      as (_ & Hwf1 & Hst1 & HW1 & HR1 & HO1 & Hnew & Hold).
    remember (fst (write_next B N xs st)) as st1 eqn:Est1.
    destruct (drain_published fuel st1 Hwf1) as [Hdrain _].
    { rewrite HR1. lia. }
    { rewrite HW1, HR1. lia. }
    rewrite HW1, HR1 in Hdrain.
    replace (Z.to_nat (writeIndex st + 1 - readIndex st - 1)) with 1%nat
      in Hdrain by lia.
    destruct (Z.ltb_spec (readIndex st + 1) (writeIndex st + 1)); [| lia].
    replace (writeIndex st + 1 - 1) with (writeIndex st) in Hdrain by lia.
    assert (Hwf2 : wf (store_readIndex st1 (writeIndex st)))
      by (apply store_readIndex_wf; [exact Hwf1 | exact HW]).
    assert (HWR2 : writeIndex (store_readIndex st1 (writeIndex st)) =
                   readIndex (store_readIndex st1 (writeIndex st)) + 1)
      by exact HW1.
    assert (HR2 : readIndex (store_readIndex st1 (writeIndex st)) +
                  Z.of_nat (length rs) <= readIndexMax N)
      by (cbn [store_readIndex readIndex]; lia).
    destruct (IH (store_readIndex st1 (writeIndex st)) Hwf2 HB Hfit Hst1 Hrs
                 HWR2 HR2 Hfuel) as (st' & Hrun & HW' & HR' & HO').
    cbn [store_readIndex readIndex writeIndex overflowCount] in HW', HR', HO'.
    assert (Hseen : map (slot_at B N st1) (index_range (readIndex st + 1) 1) =
                    [slot_at B N st (writeIndex st)]).
    { unfold index_range. cbn [seq map].
      replace (readIndex st + 1 + Z.of_nat 0) with (writeIndex st) by lia.
      rewrite Hold by (apply mod_apart; lia). reflexivity. }
    assert (Hhead : slot_at B N (store_readIndex st1 (writeIndex st))
                      (writeIndex (store_readIndex st1 (writeIndex st))) = xs).
    { change (slot_at B N st1 (writeIndex st1) = xs). rewrite HW1. exact Hnew. }
    rewrite Hseen in Hdrain. rewrite Hhead in Hrun.
    exists st'. split.
    + cbn [lockstep]. rewrite <- Est1, Hdrain, Hrun. reflexivity.
    + rewrite HW', HR', HO', HW1, HO1. repeat split; lia.
Qed.

(** ** The fresh pool *)

Lemma skipn_repeat {A : Type} (x : A) (n m : nat) :
  skipn n (repeat x m) = repeat x (m - n).
Proof.
  revert m. induction n as [| n IH]; intros m.
  - rewrite Nat.sub_0_r. reflexivity.
  - destruct m as [| m]; [reflexivity | apply IH].
Qed.

Lemma firstn_repeat {A : Type} (x : A) (n m : nat) :
  (n <= m)%nat -> firstn n (repeat x m) = repeat x n.
Proof.
  revert m. induction n as [| n IH]; intros m Hn; [reflexivity |].
  destruct m as [| m]; [lia |]. simpl. f_equal. apply IH. lia.
Qed.

(** X13.  The constructor hands over a storage of [bufferSize * poolSize]
    value-initialised elements (when the product fits [unsigned]): every
    slot of the fresh pool reads as [bufferSize] copies of that value, and
    the counters are values of [uint64_t]. *)
Theorem new_pool_prefaulted (i : Z) :
  B * N <= U32.max ->
  wf (new_pool T0 B N) /\
  storage_ok B N (new_pool T0 B N) /\
  Z.of_nat (length (pool_data (new_pool T0 B N))) = B * N /\
  slot_at B N (new_pool T0 B N) i = repeat T0 (Z.to_nat B).
Proof.
  intros Hfit. pose proof (storage_size_eq Hfit) as Hsz.
  pose proof pool_size_bounds as HN. unfold U32.in_range in B_range.
  assert (Hlen : Z.of_nat (length (pool_data (new_pool T0 B N))) =
                 storage_size B N).
  { simpl. rewrite repeat_length, Hsz. nia. }
  split; [apply new_pool_wf |]. split; [exact Hlen |].
  split; [rewrite Hlen; exact Hsz |].
  destruct (bufferAt_in_storage i Hfit) as [Hp0 Hp1].
  unfold slot_at, slot_read. simpl.
  rewrite skipn_repeat. apply firstn_repeat. lia.
Qed.

(** ** The producer against a consumer that stands still *)

(** X14.  With [R] fixed (up to the sentinel) and [W <= R + N], [k] calls
    of [nextWritableBuffer] take [W] to [min (W + k, R + N)]: the calls are
    admitted until the pool is full and refused from then on, and the
    overflow counter counts exactly the refused ones,
    [max (0, W + k - (R + N))] (while it stays within 64 bits).  [R] and the
    storage are not touched. *)
Theorem producer_runs_saturates (k : nat) (st : WaitFreeBufferPool T) :
  wf st -> readIndex st <= readIndexMax N ->
  writeIndex st <= readIndex st + N ->
  overflowCount st + Z.of_nat k <= U64.max ->
  writeIndex (producer_runs B N k st) =
    Z.min (writeIndex st + Z.of_nat k) (readIndex st + N) /\
  overflowCount (producer_runs B N k st) =
    overflowCount st +
    Z.max 0 (writeIndex st + Z.of_nat k - (readIndex st + N)) /\
  readIndex (producer_runs B N k st) = readIndex st /\
  pool_data (producer_runs B N k st) = pool_data st.
Proof.
  intros Hwf HR HWR. pose proof Hwf as (_ & _ & HO). unfold U64.in_range in HO.
  induction k as [| k IH]; intros Hov.
  - simpl. repeat split; lia.
  - rewrite Nat2Z.inj_succ in Hov |- *.
    destruct (IH ltac:(lia)) as (HWk & HOk & HRk & HDk).
    rewrite producer_runs_snoc.
    pose proof (producer_runs_wf k st Hwf) as Hwfk.
    destruct (admits N (producer_runs B N k st)) eqn:Ha.
    + rewrite nextWritableBuffer_admitted by assumption. simpl.
      apply admits_iff in Ha; [| exact Hwfk | rewrite HRk; exact HR].
      rewrite HRk in Ha. repeat split; try assumption; lia.
    + rewrite nextWritableBuffer_full by assumption. simpl.
      assert (Hge : readIndex st + N <= writeIndex (producer_runs B N k st)).
      { destruct (Z_lt_le_dec (writeIndex (producer_runs B N k st))
                              (readIndex st + N)) as [Hlt | Hge]; [| exact Hge].
        rewrite <- HRk in Hlt.
        apply admits_iff in Hlt; [congruence | exact Hwfk |].
        rewrite HRk. exact HR. }
      rewrite incr64_small by lia. repeat split; try assumption; lia.
Qed.

(** X15.  A refused write costs the newest record only.  On a full pool
    ([W - R = N], [R] up to the sentinel) [nextWritableBuffer] returns the
    slot of the unchanged [W]; the record written through it replaces what
    that slot held, every other slot keeps its contents, and the consumer
    that drains afterwards reads exactly what it would have read before the
    call. *)
Theorem refused_write_keeps_older (fuel : nat) (xs : list T)
        (st : WaitFreeBufferPool T) :
  wf st -> 0 < B -> B * N <= U32.max -> storage_ok B N st ->
  Z.of_nat (length xs) = B ->
  readIndex st <= readIndexMax N ->
  writeIndex st - readIndex st = N ->
  let st' := fst (write_next B N xs st) in
  snd (write_next B N xs st) = bufferAt B N (writeIndex st) /\
  writeIndex st' = writeIndex st /\
  readIndex st' = readIndex st /\
  overflowCount st' = U64.incr (overflowCount st) /\
  slot_at B N st' (writeIndex st) = xs /\
  (forall i, i mod N <> writeIndex st mod N ->
             slot_at B N st' i = slot_at B N st i) /\
  ((Z.to_nat N <= fuel)%nat ->
   option_map snd (drain B N NDEBUG fuel st' None) =
   option_map snd (drain B N NDEBUG fuel st None)).
Proof.
  intros Hwf HB Hfit Hst Hxs HR Hfull st'. subst st'.
  pose proof pool_size_bounds as HN.
  pose proof Hwf as (HW & HRr & HO). unfold U64.in_range in HW, HRr.
  assert (HRmax : readIndexMax N = U64.max - N) by apply readIndexMax_eq.
  assert (Ha : admits N st = false).
  { destruct (admits N st) eqn:Ha; [| reflexivity].
    apply admits_iff in Ha; [lia | exact Hwf | exact HR]. }
  unfold write_next. rewrite nextWritableBuffer_full by exact Ha.
  cbn [fst snd fill store_data store_overflowCount writeIndex readIndex
       overflowCount pool_data].
  destruct (bufferAt_in_storage (writeIndex st) Hfit) as [Hp0 Hp1].
  unfold storage_ok in Hst. rewrite <- Hst in Hp1.
  assert (Hsame : slot_read B (bufferAt B N (writeIndex st))
                    (slot_write (bufferAt B N (writeIndex st)) xs (pool_data st)) = xs)
    by (apply slot_read_write_same; assumption).
  assert (Hother : forall i, i mod N <> writeIndex st mod N ->
            slot_read B (bufferAt B N i)
              (slot_write (bufferAt B N (writeIndex st)) xs (pool_data st)) =
            slot_read B (bufferAt B N i) (pool_data st)).
  { intros i Hi. destruct (bufferAt_in_storage i Hfit) as [Hq0 _].
    apply slot_read_write_other; try assumption.
    destruct (bufferAt_disjoint i (writeIndex st) HB Hi);
      [left | right]; assumption. }
  split; [reflexivity |]. split; [reflexivity |]. split; [reflexivity |].
  split; [reflexivity |]. split; [exact Hsame |]. split; [exact Hother |].
  intros Hfuel.
  set (st' := mkPool (writeIndex st) (readIndex st)
                (slot_write (bufferAt B N (writeIndex st)) xs (pool_data st))
                (U64.incr (overflowCount st))).
  assert (Hwf' : wf st').
  { repeat split; try apply HW; try apply HRr; apply incr64_range. }
  destruct (drain_published fuel st' Hwf') as [Hd' _];
    [simpl; lia | simpl; lia |].
  destruct (drain_published fuel st Hwf) as [Hd _]; [lia | lia |].
  change (fill (store_overflowCount st (U64.incr (overflowCount st)))
            (bufferAt B N (writeIndex st)) xs) with st'.
  rewrite Hd', Hd. simpl. f_equal.
  apply map_ext_in. intros i Hi. apply index_range_bounds in Hi.
  apply Hother, mod_apart. lia.
Qed.

End Facts.

(** ** The scenarios with [B = 4] and [N = 4] *)

(** Ranges of closed terms, by evaluation. *)
Ltac closed_range :=
  unfold wf, U64.in_range, U32.in_range;
  repeat split; vm_compute; intros Hcmp; discriminate Hcmp.

Lemma four_in_range : U32.in_range 4.
Proof. unfold U32.in_range, U32.max. lia. Qed.

Lemma four_valid : isPoolSizeValid 4 = true.
Proof. reflexivity. Qed.

Lemma pool0_wf : wf Scenario.pool0.
Proof. exact (new_pool_wf 4 4 0 four_in_range four_valid). Qed.

Lemma pool_full_wf : wf Scenario.pool_full.
Proof.
  apply producer_runs_wf; try exact four_in_range; try exact four_valid.
  apply store_readIndex_wf; [exact pool0_wf |].
  unfold U64.in_range, U64.max. lia.
Qed.

Lemma nextWritableBuffer_advances_witness :
  wf Scenario.pool_attached /\
  readIndex Scenario.pool_attached <= readIndexMax 4 /\
  writeIndex Scenario.pool_attached < readIndex Scenario.pool_attached + 4 /\
  writeIndex (fst (nextWritableBuffer 4 4 Scenario.pool_attached)) = 1 /\
  snd (nextWritableBuffer 4 4 Scenario.pool_attached) = 4.
Proof.
  assert (Hwf : wf Scenario.pool_attached) by closed_range.
  assert (Hle : readIndex Scenario.pool_attached <= readIndexMax 4).
  { vm_compute. intros Hc. discriminate Hc. }
  assert (Hlt : writeIndex Scenario.pool_attached <
                readIndex Scenario.pool_attached + 4) by reflexivity.
  split; [exact Hwf |]. split; [exact Hle |]. split; [exact Hlt |].
  destruct (nextWritableBuffer_advances 4 4 four_in_range four_in_range
              four_valid Scenario.pool_attached Hwf) as (Hint & _ & _ & Hland & _).
  destruct (Hint Hle Hlt) as (HW & _).
  split; [exact HW | exact Hland].
Defined.

(** With [R] above the sentinel, in a state of the invariant of an attached
    consumer, [W < R + N] holds on integers and the call leaves [W] where it
    was: the sum of the code wrapped to [0], the call was refused and
    counted as an overflow. *)
Lemma nextWritableBuffer_refused_above_sentinel :
  client_inv 4 4 (mkClient Scenario.pool_near_wrap (Some None)) /\
  readIndexMax 4 < readIndex Scenario.pool_near_wrap /\
  writeIndex Scenario.pool_near_wrap < readIndex Scenario.pool_near_wrap + 4 /\
  U64.add (readIndex Scenario.pool_near_wrap) 4 = 0 /\
  writeIndex (fst (nextWritableBuffer 4 4 Scenario.pool_near_wrap)) =
  writeIndex Scenario.pool_near_wrap /\
  writeIndex (fst (nextWritableBuffer 4 4 Scenario.pool_near_wrap)) <>
  writeIndex Scenario.pool_near_wrap + 1 /\
  overflowCount (fst (nextWritableBuffer 4 4 Scenario.pool_near_wrap)) =
  overflowCount Scenario.pool_near_wrap + 1.
Proof.
  split.
  - unfold client_inv. split; [closed_range |].
    repeat split; vm_compute; first [reflexivity | intros Hc; discriminate Hc].
  - repeat split; vm_compute; first [reflexivity | intros Hc; discriminate Hc].
Qed.

Lemma nextReadableBuffer_step_witness :
  wf Scenario.pool_full /\
  assertion_passes 4 4 false Scenario.pool_full (Some 4) /\
  exists st' res,
    nextReadableBuffer 4 4 false Scenario.pool_full (Some 4) = Ret (st', res) /\
    readIndex st' = 1 /\ res = Some 8.
Proof.
  assert (Hp : assertion_passes 4 4 false Scenario.pool_full (Some 4)).
  { right. intros p Hp. injection Hp as <-. reflexivity. }
  split; [exact pool_full_wf |]. split; [exact Hp |].
  destruct (nextReadableBuffer_step 4 4 false four_in_range four_in_range
              four_valid Scenario.pool_full (Some 4) pool_full_wf Hp)
    as (st' & res & Hret & HR & _ & HW & _ & Hres & _).
  exists st', res. split; [exact Hret |]. split; [exact HR |].
  rewrite Hres, HR, HW. reflexivity.
Defined.

Lemma overflowCount_accounting_witness :
  wf Scenario.pool_full /\
  writeIndex (fst (nextWritableBuffer 4 4 Scenario.pool_full)) = 4 /\
  overflowCount (fst (nextWritableBuffer 4 4 Scenario.pool_full)) = 1 /\
  snd (nextWritableBuffer 4 4 Scenario.pool_full) = 0.
Proof.
  split; [exact pool_full_wf |].
  destruct (overflowCount_accounting 4 4 false four_in_range four_valid
              Scenario.pool_full pool_full_wf) as (Hfull & _).
  destruct (Hfull eq_refl) as (HW & _ & _ & HO & Hp).
  split; [exact HW |]. split; [| exact Hp].
  apply HO. reflexivity.
Defined.

(** At [2 ^ 64 - 1] the overflow counter goes back to [0] on the next
    refused call: it decreases.  And with [R] above the sentinel, in a state
    of the invariant of an attached consumer, the producer is refused and
    the counter incremented though [W - R = 1]. *)
Lemma overflowCount_wraps :
  (wf Scenario.pool_overflow_top /\
   admits 4 Scenario.pool_overflow_top = false /\
   overflowCount Scenario.pool_overflow_top = 2 ^ 64 - 1 /\
   overflowCount (fst (nextWritableBuffer 4 4 Scenario.pool_overflow_top)) = 0 /\
   overflowCount (fst (nextWritableBuffer 4 4 Scenario.pool_overflow_top)) <
   overflowCount Scenario.pool_overflow_top) /\
  (client_inv 4 4 (mkClient Scenario.pool_near_wrap (Some None)) /\
   readIndex Scenario.pool_near_wrap <= writeIndex Scenario.pool_near_wrap /\
   writeIndex Scenario.pool_near_wrap - readIndex Scenario.pool_near_wrap = 1 /\
   admits 4 Scenario.pool_near_wrap = false /\
   overflowCount (fst (nextWritableBuffer 4 4 Scenario.pool_near_wrap)) =
   overflowCount Scenario.pool_near_wrap + 1).
Proof.
  split.
  - split; [closed_range |]. repeat split; vm_compute; reflexivity.
  - split.
    + unfold client_inv. split; [closed_range |].
      repeat split; vm_compute; first [reflexivity | intros Hc; discriminate Hc].
    + split; [closed_range |]. repeat split; vm_compute; reflexivity.
Qed.

Lemma once_round_runs :
  run 4 4 false 1 (fresh 0 4 4) Scenario.once_round = Some Scenario.client_round.
Proof. vm_compute. reflexivity. Qed.

Lemma counters_invariant_witness :
  run 4 4 false 1 (fresh 0 4 4) Scenario.once_round = Some Scenario.client_round /\
  readIndex (pool_of Scenario.client_round) <=
  writeIndex (pool_of Scenario.client_round) /\
  writeIndex (pool_of Scenario.client_round) -
  readIndex (pool_of Scenario.client_round) <= 4.
Proof.
  split; [exact once_round_runs |].
  destruct (counters_invariant 4 4 false 0 four_in_range four_in_range four_valid
              1 Scenario.once_round Scenario.client_round once_round_runs)
    as (H1 & H2 & _).
  split; [| exact H2].
  apply H1. intros Hd. discriminate Hd.
Defined.

(** The loop beside a busy producer: the first load returns [0], the
    reload [9 > 0 + 4], so the loop goes round again, proposes [8] and
    leaves with [(8, 9)]. *)
Lemma attachReader_post_witness :
  wf Scenario.pool0 /\
  Forall U64.in_range [0; 9; 9] /\
  attachReader_with 4 [0; 9; 9] Scenario.pool0 =
  Some (store_readIndex Scenario.pool0 8, (8, 9)) /\
  9 - 8 <= 4 /\
  (exists l wp, attach_loads 4 [9; 9] 0 = l ++ [wp; 9] /\ 8 = Z.max (wp - 1) 0) /\
  attach_loop 4 [9; 9] Scenario.pool0 0 =
  attach_loop 4 [9] (store_readIndex Scenario.pool0 0) 9 /\
  attachReader 4 1 Scenario.pool0 = Some (store_readIndex Scenario.pool0 0, (0, 0)).
Proof.
  assert (Hall : Forall U64.in_range [0; 9; 9]).
  { repeat constructor; vm_compute; intros Hc; discriminate Hc. }
  assert (Hres : attachReader_with 4 [0; 9; 9] Scenario.pool0 =
                 Some (store_readIndex Scenario.pool0 8, (8, 9))).
  { vm_compute. reflexivity. }
  assert (H0r : U64.in_range 0).
  { split; vm_compute; intros Hc; discriminate Hc. }
  assert (H0le : 0 <= 2 ^ 64 - 4).
  { vm_compute. intros Hc. discriminate Hc. }
  split; [exact pool0_wf |]. split; [exact Hall |]. split; [exact Hres |].
  destruct (attachReader_post 4 four_in_range four_valid Scenario.pool0 pool0_wf)
    as (Hstep & _ & Hpost & _ & _ & _ & H0).
  destruct (Hpost 0 [9; 9] _ 8 9 Hall Hres) as (Hbound & _ & _ & Hloads).
  split; [exact Hbound |]. split; [exact Hloads |].
  split; [exact (Hstep 0 9 [9] Scenario.pool0 H0r H0le) |].
  exact (H0 O eq_refl).
Defined.

(** Runs of the loop beside a busy producer.  The reload returns [2]: the
    pair returned is [(0, 2)], [R] coming from the [W = 0] loaded before.
    The reload returns [5 > 0 + 4]: the loop goes round again and returns
    [(4, 5)].  The producer may pass [R + N] at every reload, the loop going
    round as often: here three times. *)
Example attach_beside_producer :
  option_map snd (attachReader_with 4 [0; 2] Scenario.pool0) = Some (0, 2) /\
  attach_loads 4 [2] 0 = [0; 2] /\
  option_map snd (attachReader_with 4 [0; 5; 5] Scenario.pool0) = Some (4, 5) /\
  attach_loads 4 [5; 5] 0 = [0; 5; 5] /\
  option_map snd (attachReader_with 4 [0; 5; 10; 15; 15] Scenario.pool0) =
  Some (14, 15) /\
  attach_loads 4 [5; 10; 15; 15] 0 = [0; 5; 10; 15; 15] /\
  attachReader_with 4 [0; 5; 10; 15] Scenario.pool0 = None.
Proof. repeat split; vm_compute; reflexivity. Qed.

(** The pool after [2 ^ 64 - 3] producer calls without a consumer, which
    leave [R] at the sentinel: [W = 2 ^ 64 - 3], an attach proposes
    [R = W - 1] and reloads the same [W]; [W > R + N] is false on integers,
    and the attach never leaves its loop, the sum of the code being [0]. *)
Lemma attach_spins_near_top (k : nat) :
  Z.of_nat k = 2 ^ 64 - 3 ->
  writeIndex (producer_runs 4 4 k Scenario.pool0) = 2 ^ 64 - 3 /\
  propose (writeIndex (producer_runs 4 4 k Scenario.pool0)) = 2 ^ 64 - 4 /\
  (writeIndex (producer_runs 4 4 k Scenario.pool0) >?
   propose (writeIndex (producer_runs 4 4 k Scenario.pool0)) + 4) = false /\
  U64.add (propose (writeIndex (producer_runs 4 4 k Scenario.pool0))) 4 = 0 /\
  forall fuel, attachReader 4 fuel (producer_runs 4 4 k Scenario.pool0) = None.
Proof.
  intros Hk.
  destruct (producer_runs_detached 4 4 four_in_range four_valid k
              Scenario.pool0 pool0_wf eq_refl) as (HW & _).
  { rewrite Hk. vm_compute. intros Hc. discriminate Hc. }
  rewrite Hk in HW. rewrite HW.
  split; [reflexivity |]. split; [vm_compute; reflexivity |].
  split; [vm_compute; reflexivity |]. split; [vm_compute; reflexivity |].
  intros fuel.
  apply attachReader_stuck; try exact four_in_range; try exact four_valid.
  - apply producer_runs_wf; try exact four_in_range; try exact four_valid.
    exact pool0_wf.
  - rewrite HW. reflexivity.
Qed.

Lemma attachReader_never_returns_near_top :
  writeIndex (producer_runs 4 4 (Z.to_nat (2 ^ 64 - 3)) Scenario.pool0) = 2 ^ 64 - 3 /\
  propose (writeIndex (producer_runs 4 4 (Z.to_nat (2 ^ 64 - 3)) Scenario.pool0)) =
  2 ^ 64 - 4 /\
  (writeIndex (producer_runs 4 4 (Z.to_nat (2 ^ 64 - 3)) Scenario.pool0) >?
   propose (writeIndex (producer_runs 4 4 (Z.to_nat (2 ^ 64 - 3)) Scenario.pool0)) + 4) =
  false /\
  U64.add (propose (writeIndex (producer_runs 4 4 (Z.to_nat (2 ^ 64 - 3))
                                  Scenario.pool0))) 4 = 0 /\
  forall fuel,
    attachReader 4 fuel (producer_runs 4 4 (Z.to_nat (2 ^ 64 - 3)) Scenario.pool0) = None.
Proof. apply attach_spins_near_top. apply Z2Nat.id. discriminate. Qed.

Lemma pool_w3_wf : wf Scenario.pool_w3.
Proof.
  apply producer_runs_wf; try exact four_in_range; try exact four_valid.
  exact pool0_wf.
Qed.

Lemma detach_then_attach_witness :
  wf Scenario.pool_w3 /\
  option_map snd (attachReader 4 1 (fst (detachReader 4 Scenario.pool_w3))) =
  Some (2, 3).
Proof.
  split; [exact pool_w3_wf |].
  destruct (detach_then_attach 4 four_in_range four_valid Scenario.pool_w3 O
              pool_w3_wf) as (_ & _ & _ & H & _).
  apply H. closed_range.
Defined.

(** The pool after [2 ^ 64 - 1] producer calls without a consumer: [W] is
    at [2 ^ 64 - 1], and an attach never leaves its loop. *)
Lemma attach_stuck_at_top (k : nat) :
  Z.of_nat k = 2 ^ 64 - 1 ->
  writeIndex (producer_runs 4 4 k Scenario.pool0) = 2 ^ 64 - 1 /\
  forall fuel,
    attachReader 4 fuel (fst (detachReader 4 (producer_runs 4 4 k Scenario.pool0))) =
    None.
Proof.
  intros Hk.
  destruct (producer_runs_detached 4 4 four_in_range four_valid k
              Scenario.pool0 pool0_wf eq_refl) as (HW & _).
  { rewrite Hk. vm_compute. intros Hc. discriminate Hc. }
  rewrite Hk in HW. split; [exact HW |].
  intros fuel.
  apply attachReader_stuck; try exact four_in_range; try exact four_valid.
  - apply store_readIndex_wf; [| apply readIndexMax_range].
    apply producer_runs_wf; try exact four_in_range; try exact four_valid.
    exact pool0_wf.
  - unfold detachReader, fst, store_readIndex, writeIndex at 1.
    rewrite HW. reflexivity.
Qed.

(** On the fresh pool, [W = 0], detach then attach returns [(0, 0)], which
    is not [(W - 1, W)], on integers or on [uint64_t]; and on the pool that
    [2 ^ 64 - 1] producer calls leave, [W = 2 ^ 64 - 1], the attach never
    returns. *)
Lemma detach_then_attach_at_zero :
  (option_map snd (attachReader 4 1 (fst (detachReader 4 Scenario.pool0))) =
   Some (0, 0) /\
   (0, 0) <> (writeIndex Scenario.pool0 - 1, writeIndex Scenario.pool0) /\
   (0, 0) <> (U64.sub (writeIndex Scenario.pool0) 1, writeIndex Scenario.pool0)) /\
  (writeIndex (producer_runs 4 4 (Z.to_nat (2 ^ 64 - 1)) Scenario.pool0) = 2 ^ 64 - 1 /\
   forall fuel,
     attachReader 4 fuel
       (fst (detachReader 4 (producer_runs 4 4 (Z.to_nat (2 ^ 64 - 1)) Scenario.pool0))) =
     None).
Proof.
  split.
  - split; [vm_compute; reflexivity |].
    split; vm_compute; intros H; discriminate H.
  - apply attach_stuck_at_top. apply Z2Nat.id. discriminate.
Qed.

Lemma detached_writes_witness :
  Z.of_nat 5 <= 2 ^ 64 - 1 /\
  writeIndex (producer_runs 4 4 5 Scenario.pool0) = 5 /\
  overflowCount (producer_runs 4 4 5 Scenario.pool0) = 0.
Proof.
  assert (H5 : Z.of_nat 5 <= 2 ^ 64 - 1) by (simpl; lia).
  split; [exact H5 |].
  destruct (detached_writes 4 4 0 four_in_range four_valid 5%nat H5)
    as (_ & _ & _ & _ & Hruns & _).
  destruct (Hruns 5%nat (le_n 5)) as (HW & _ & HO).
  split; [exact HW | exact HO].
Defined.

Lemma detached_overflow_after (k : nat) :
  Z.of_nat k = 2 ^ 64 ->
  writeIndex (producer_runs 4 4 k Scenario.pool0) = 2 ^ 64 - 1 /\
  readIndex (producer_runs 4 4 k Scenario.pool0) = readIndexMax 4 /\
  overflowCount (producer_runs 4 4 k Scenario.pool0) = 1.
Proof.
  intros Hk. destruct k as [| k]; [discriminate Hk |].
  assert (Hk' : Z.of_nat k = 2 ^ 64 - 1) by lia.
  destruct (producer_runs_detached 4 4 four_in_range four_valid k
              Scenario.pool0 pool0_wf eq_refl) as (HW & HR & HO & _).
  { rewrite Hk'. vm_compute. intros Hc. discriminate Hc. }
  rewrite Hk' in HW.
  assert (Ha : admits 4 (producer_runs 4 4 k Scenario.pool0) = false).
  { rewrite admits_detached
      by (try exact four_in_range; try exact four_valid; exact HR).
    rewrite HW. reflexivity. }
  rewrite producer_runs_snoc, nextWritableBuffer_full by exact Ha.
  unfold fst, store_overflowCount, writeIndex at 1, readIndex at 1,
    overflowCount at 1.
  rewrite HW, HR, HO. repeat split.
Qed.

(** A run of [2 ^ 64] calls on the detached pool: the last one finds
    [W = 2 ^ 64 - 1], leaves it there and counts an overflow. *)
Lemma detached_overflow_at_top :
  writeIndex (producer_runs 4 4 (Z.to_nat (2 ^ 64)) Scenario.pool0) = 2 ^ 64 - 1 /\
  readIndex (producer_runs 4 4 (Z.to_nat (2 ^ 64)) Scenario.pool0) = readIndexMax 4 /\
  overflowCount (producer_runs 4 4 (Z.to_nat (2 ^ 64)) Scenario.pool0) = 1.
Proof. apply detached_overflow_after. apply Z2Nat.id. discriminate. Qed.

(** C8.  With [B = 4] and [N = 4]: the consumer attaches at [W = 0] and the
    producer calls [nextWritableBuffer] five times, writing the records [a],
    [b], [c], [d], [e] into the slots it is given.  The first four calls take
    [W] to [4]; the fifth leaves [W = 4], raises the overflow counter to [1]
    and returns the slot that held [d], which then holds [e].  The consumer
    that drains afterwards reads [a], [b], [c] in that order and then gets
    [nullptr]: the slot of [W = 4], where [e] is, is not published. *)
Theorem fill_without_drain (ndebug : bool) (a b c d e : list Z) :
  length a = 4%nat -> length b = 4%nat -> length c = 4%nat ->
  length d = 4%nat -> length e = 4%nat ->
  Scenario.attached0 = Some (store_readIndex Scenario.pool0 0, (0, 0)) /\
  exists st1 st2 st3 st4 st5 p1 p2 p3 p4 p5,
    Scenario.filled [a] = Some (st1, [p1]) /\
    Scenario.filled [a; b] = Some (st2, [p1; p2]) /\
    Scenario.filled [a; b; c] = Some (st3, [p1; p2; p3]) /\
    Scenario.filled [a; b; c; d] = Some (st4, [p1; p2; p3; p4]) /\
    Scenario.filled [a; b; c; d; e] = Some (st5, [p1; p2; p3; p4; p5]) /\
    map writeIndex [st1; st2; st3; st4; st5] = [1; 2; 3; 4; 4] /\
    map overflowCount [st1; st2; st3; st4; st5] = [0; 0; 0; 0; 1] /\
    p5 = p4 /\
    slot_read 4 p4 (pool_data st4) = d /\
    slot_read 4 p5 (pool_data st5) = e /\
    Scenario.drained ndebug [a; b; c; d; e] = Some [a; b; c].
Proof.
  intros Ha Hb Hc Hd He.
  destruct a as [| a1 [| a2 [| a3 [| a4 [| ? ?]]]]]; try discriminate Ha.
  destruct b as [| b1 [| b2 [| b3 [| b4 [| ? ?]]]]]; try discriminate Hb.
  destruct c as [| c1 [| c2 [| c3 [| c4 [| ? ?]]]]]; try discriminate Hc.
  destruct d as [| d1 [| d2 [| d3 [| d4 [| ? ?]]]]]; try discriminate Hd.
  destruct e as [| e1 [| e2 [| e3 [| e4 [| ? ?]]]]]; try discriminate He.
  split; [reflexivity |].
  do 10 eexists.
  split; [reflexivity |]. split; [reflexivity |]. split; [reflexivity |].
  split; [reflexivity |]. split; [reflexivity |]. split; [reflexivity |].
  split; [reflexivity |]. split; [reflexivity |]. split; [reflexivity |].
  split; [reflexivity |].
  destruct ndebug; reflexivity.
Qed.

Lemma fill_without_drain_witness :
  length Scenario.rec_a = 4%nat /\
  Scenario.drained false
    [Scenario.rec_a; Scenario.rec_b; Scenario.rec_c; Scenario.rec_d; Scenario.rec_e] =
  Some [Scenario.rec_a; Scenario.rec_b; Scenario.rec_c].
Proof.
  split; [reflexivity |].
  destruct (fill_without_drain false Scenario.rec_a Scenario.rec_b Scenario.rec_c
              Scenario.rec_d Scenario.rec_e eq_refl eq_refl eq_refl eq_refl eq_refl)
    as (_ & st1 & st2 & st3 & st4 & st5 & p1 & p2 & p3 & p4 & p5 & H).
  apply H.
Defined.

(** The drain after five writes reads three records, not four: [e] does not
    come out. *)
Lemma drain_misses_last :
  Scenario.drained false
    [Scenario.rec_a; Scenario.rec_b; Scenario.rec_c; Scenario.rec_d; Scenario.rec_e] =
  Some [Scenario.rec_a; Scenario.rec_b; Scenario.rec_c] /\
  Scenario.drained false
    [Scenario.rec_a; Scenario.rec_b; Scenario.rec_c; Scenario.rec_d; Scenario.rec_e] <>
  Some [Scenario.rec_a; Scenario.rec_b; Scenario.rec_c; Scenario.rec_e].
Proof.
  split; [reflexivity |]. intros H. discriminate H.
Qed.

(** C9.  With [B = 4] and [N = 4]: the consumer attaches at [W = 0], the
    producer calls [nextWritableBuffer] once and fills the slot it is given
    with [1, 2, 3, 4].  [nextReadableBuffer(nullptr)] returns [nullptr] then:
    the slot is the one at [W = 1], not yet published.  After the
    producer's next call of [nextWritableBuffer],
    [nextReadableBuffer(nullptr)] returns the slot holding [1, 2, 3, 4], and
    the call that follows it returns [nullptr]. *)
Theorem single_write_read :
  exists st0 st1 p1 st2 p2,
    Scenario.attached0 = Some (st0, (0, 0)) /\
    write_next 4 4 [1; 2; 3; 4] st0 = (st1, p1) /\
    writeIndex st1 = 1 /\
    slot_read 4 p1 (pool_data st1) = [1; 2; 3; 4] /\
    (forall ndebug, nextReadableBuffer 4 4 ndebug st1 None = Ret (st1, None)) /\
    nextWritableBuffer 4 4 st1 = (st2, p2) /\
    (forall ndebug,
       nextReadableBuffer 4 4 ndebug st2 None = Ret (st2, Some p1) /\
       slot_read 4 p1 (pool_data st2) = [1; 2; 3; 4] /\
       nextReadableBuffer 4 4 ndebug st2 (Some p1) =
       Ret (store_readIndex st2 1, None)).
Proof.
  do 5 eexists.
  split; [reflexivity |]. split; [reflexivity |]. split; [reflexivity |].
  split; [reflexivity |]. split; [reflexivity |]. split; [reflexivity |].
  intros ndebug. split; [reflexivity |]. split; [reflexivity |].
  destruct ndebug; reflexivity.
Qed.

(** After one write the slot holds [1, 2, 3, 4] and the first read returns
    [nullptr]. *)
Lemma first_read_is_null :
  exists st0 st1 p1,
    Scenario.attached0 = Some (st0, (0, 0)) /\
    write_next 4 4 [1; 2; 3; 4] st0 = (st1, p1) /\
    slot_read 4 p1 (pool_data st1) = [1; 2; 3; 4] /\
    nextReadableBuffer 4 4 false st1 None = Ret (st1, None) /\
    nextReadableBuffer 4 4 true st1 None = Ret (st1, None).
Proof.
  do 3 eexists. repeat split.
Qed.

Lemma read_once_round :
  nextReadableBuffer 4 4 false (pool_of Scenario.client_round) None =
  Ret (pool_of Scenario.client_round, Some 0).
Proof. vm_compute. reflexivity. Qed.

Lemma readable_slot_index_witness :
  0 < 4 /\
  run 4 4 false 1 (fresh 0 4 4) Scenario.once_round = Some Scenario.client_round /\
  consumer Scenario.client_round = Some None /\
  exists st',
    nextReadableBuffer 4 4 false (pool_of Scenario.client_round) None =
    Ret (st', Some 0) /\
    0 = bufferAt 4 4 (readIndex st' + 1) /\
    0 <> bufferAt 4 4 (writeIndex st').
Proof.
  split; [reflexivity |]. split; [exact once_round_runs |].
  split; [reflexivity |].
  destruct (readable_slot_index 4 4 false 0 four_in_range four_in_range four_valid
              1 Scenario.once_round Scenario.client_round None eq_refl
              once_round_runs eq_refl) as (st' & res & Hret & Hres).
  assert (Hr : res = Some 0).
  { rewrite read_once_round in Hret. injection Hret as _ <-. reflexivity. }
  exists st'. rewrite Hr in Hret. split; [exact Hret |].
  destruct (Hres 0 Hr) as (H1 & _ & _ & _ & H5 & _).
  split; [exact H1 | exact H5].
Defined.

(** Once round the storage, the consumer is handed the storage slot of the
    logical index [0]: it is the slot of index [4]. *)
Lemma slot_zero_is_read :
  run 4 4 false 1 (fresh 0 4 4) Scenario.once_round = Some Scenario.client_round /\
  consumer Scenario.client_round = Some None /\
  readIndex (pool_of Scenario.client_round) = 3 /\
  writeIndex (pool_of Scenario.client_round) = 5 /\
  nextReadableBuffer 4 4 false (pool_of Scenario.client_round) None =
  Ret (pool_of Scenario.client_round, Some (bufferAt 4 4 0)).
Proof.
  split; [vm_compute; reflexivity |].
  split; [reflexivity |]. split; [reflexivity |]. split; [reflexivity |].
  vm_compute. reflexivity.
Qed.

(** ** More of the pool at [B = 4] and [N = 4] *)

Lemma sixteen_fits : 4 * 4 <= U32.max.
Proof. vm_compute. intros Hc. discriminate Hc. Qed.

Lemma pool_attached_wf : wf Scenario.pool_attached.
Proof. closed_range. Qed.

Lemma pool_attached_storage : storage_ok 4 4 Scenario.pool_attached.
Proof. vm_compute. reflexivity. Qed.

Lemma pool_abcd_wf : wf Scenario.pool_abcd.
Proof. closed_range. Qed.

Lemma pool_caught_up_wf : wf Scenario.pool_caught_up.
Proof. closed_range. Qed.

Lemma pool_caught_up_storage : storage_ok 4 4 Scenario.pool_caught_up.
Proof. vm_compute. reflexivity. Qed.

Lemma records_of_four (rs : list (list Z)) :
  forallb (fun xs => Z.of_nat (length xs) =? 4) rs = true ->
  Forall (fun xs => Z.of_nat (length xs) = 4) rs.
Proof.
  intros H. apply Forall_forall. intros xs Hin.
  rewrite forallb_forall in H. apply Z.eqb_eq, H, Hin.
Qed.

(** Where the product wraps the array is too small: with
    [bufferSize = poolSize = 2 ^ 16] it has no element, and the slot of the
    index [1] starts at the element [65536]. *)
Example storage_size_wraps :
  isPoolSizeValid 65536 = true /\
  storage_size 65536 65536 = 0 /\
  bufferAt 65536 65536 1 = 65536.
Proof. repeat split; vm_compute; reflexivity. Qed.

Lemma isPoolSizeValid_iff_witness :
  U32.in_range 4 /\
  (isPoolSizeValid 4 = true <-> exists k, 1 <= k <= 31 /\ 4 = 2 ^ k).
Proof.
  split; [exact four_in_range | exact (isPoolSizeValid_iff 4 four_in_range)].
Defined.

Lemma returned_pointers_in_storage_witness :
  4 * 4 <= U32.max /\
  in_storage 4 4 (snd (nextWritableBuffer 4 4 Scenario.pool0)) /\
  in_storage 4 4 (peekWithDataRace 4 4 Scenario.pool0).
Proof.
  split; [exact sixteen_fits |].
  destruct (returned_pointers_in_storage 4 4 false four_in_range four_in_range
              four_valid Scenario.pool0 sixteen_fits) as (_ & H1 & H2 & _).
  split; [exact H1 | exact H2].
Defined.

Lemma bufferAt_slots_witness :
  0 < 4 /\ bufferAt 4 4 1 = bufferAt 4 4 5 /\ bufferAt 4 4 (1 + 4) = bufferAt 4 4 1.
Proof.
  split; [reflexivity |].
  destruct (bufferAt_slots 4 4 four_in_range four_in_range four_valid 1 5 eq_refl)
    as (Hiff & _ & Hper).
  split; [apply Hiff; reflexivity | exact Hper].
Defined.

Lemma peekWithDataRace_is_producer_slot_witness :
  wf Scenario.pool0 /\
  peekWithDataRace 4 4 (fst (nextWritableBuffer 4 4 Scenario.pool0)) =
  snd (nextWritableBuffer 4 4 Scenario.pool0).
Proof.
  split; [exact pool0_wf |].
  exact (proj1 (peekWithDataRace_is_producer_slot 4 4 false Scenario.pool0 pool0_wf)).
Defined.

Lemma pool_full_refuses : admits 4 Scenario.pool_full = false.
Proof. vm_compute. reflexivity. Qed.

Lemma refused_calls_repeat_witness :
  wf Scenario.pool_full /\ admits 4 Scenario.pool_full = false /\
  writeIndex (producer_runs 4 4 3 Scenario.pool_full) = writeIndex Scenario.pool_full /\
  overflowCount (producer_runs 4 4 3 Scenario.pool_full) =
  overflowCount Scenario.pool_full + Z.of_nat 3.
Proof.
  split; [exact pool_full_wf |]. split; [exact pool_full_refuses |].
  destruct (refused_calls_repeat 4 4 3 Scenario.pool_full pool_full_wf
              pool_full_refuses) as (HW & _ & _ & _ & _ & HO).
  split; [exact HW |].
  apply HO. vm_compute. intros Hc. discriminate Hc.
Defined.

Lemma detach_unblocks_witness :
  wf Scenario.pool_full /\
  writeIndex Scenario.pool_full + Z.of_nat 2 <= U64.max /\
  writeIndex (producer_runs 4 4 2 (fst (detachReader 4 Scenario.pool_full))) =
  writeIndex Scenario.pool_full + Z.of_nat 2.
Proof.
  assert (Hle : writeIndex Scenario.pool_full + Z.of_nat 2 <= U64.max)
    by (vm_compute; intros Hc; discriminate Hc).
  split; [exact pool_full_wf |]. split; [exact Hle |].
  destruct (detach_unblocks 4 4 four_in_range four_valid 2 Scenario.pool_full
              pool_full_wf Hle) as (_ & HW & _).
  exact HW.
Defined.

Lemma attach_then_read_witness :
  wf Scenario.pool_w3 /\ writeIndex Scenario.pool_w3 <= 2 ^ 64 - 4 /\
  attachReader 4 1 Scenario.pool_w3 =
    Some (store_readIndex Scenario.pool_w3 (Z.max (writeIndex Scenario.pool_w3 - 1) 0),
          (Z.max (writeIndex Scenario.pool_w3 - 1) 0, writeIndex Scenario.pool_w3)) /\
  nextReadableBuffer 4 4 false
    (store_readIndex Scenario.pool_w3 (Z.max (writeIndex Scenario.pool_w3 - 1) 0)) None =
  Ret (store_readIndex Scenario.pool_w3 (Z.max (writeIndex Scenario.pool_w3 - 1) 0), None).
Proof.
  assert (Hle : writeIndex Scenario.pool_w3 <= 2 ^ 64 - 4)
    by (vm_compute; intros Hc; discriminate Hc).
  split; [exact pool_w3_wf |]. split; [exact Hle |].
  destruct (attach_then_read 4 4 false four_in_range four_in_range four_valid
              O Scenario.pool_w3 pool_w3_wf Hle) as (H1 & H2 & _).
  split; [exact H1 | exact H2].
Defined.

Lemma drain_reads_published_witness :
  wf Scenario.pool_abcd /\
  readIndex Scenario.pool_abcd < U64.max /\
  option_map snd (drain 4 4 false 4 Scenario.pool_abcd None) =
  Some [Scenario.rec_a; Scenario.rec_b; Scenario.rec_c].
Proof.
  assert (Hmax : readIndex Scenario.pool_abcd < U64.max) by (vm_compute; reflexivity).
  split; [exact pool_abcd_wf |]. split; [exact Hmax |].
  destruct (drain_reads_published 4 4 false four_in_range four_in_range four_valid
              4 Scenario.pool_abcd pool_abcd_wf Hmax) as (st' & Hd & _).
  { vm_compute. apply le_n. }
  rewrite Hd. vm_compute. reflexivity.
Defined.

Lemma write_all_keeps_records_witness :
  wf Scenario.pool_attached /\
  writeIndex (fst (write_all 4 4 [Scenario.rec_a; Scenario.rec_b] Scenario.pool_attached)) =
  writeIndex Scenario.pool_attached + Z.of_nat 2 /\
  snd (write_all 4 4 [Scenario.rec_a; Scenario.rec_b] Scenario.pool_attached) =
  map (bufferAt 4 4) (index_range (writeIndex Scenario.pool_attached + 1) 2).
Proof.
  split; [exact pool_attached_wf |].
  destruct (write_all_keeps_records 4 4 four_in_range four_in_range four_valid
              [Scenario.rec_a; Scenario.rec_b] Scenario.pool_attached
              pool_attached_wf eq_refl sixteen_fits pool_attached_storage
              (records_of_four [Scenario.rec_a; Scenario.rec_b] eq_refl))
    as (HW & _ & _ & Hps & _).
  - vm_compute. intros Hc. discriminate Hc.
  - vm_compute. intros Hc. discriminate Hc.
  - split; [exact HW | exact Hps].
Defined.


Lemma lockstep_delivers_witness :
  wf Scenario.pool_caught_up /\
  writeIndex Scenario.pool_caught_up = readIndex Scenario.pool_caught_up + 1 /\
  exists st',
    lockstep 4 4 false 2 [Scenario.rec_a; Scenario.rec_b; Scenario.rec_c]
      Scenario.pool_caught_up =
    Some (st', [[[0; 0; 0; 0]]; [Scenario.rec_a]; [Scenario.rec_b]]) /\
    overflowCount st' = overflowCount Scenario.pool_caught_up.
Proof.
  split; [exact pool_caught_up_wf |]. split; [reflexivity |].
  destruct (lockstep_delivers 4 4 false four_in_range four_in_range four_valid
              2 [Scenario.rec_a; Scenario.rec_b; Scenario.rec_c]
              Scenario.pool_caught_up pool_caught_up_wf eq_refl sixteen_fits
              pool_caught_up_storage
              (records_of_four [Scenario.rec_a; Scenario.rec_b; Scenario.rec_c] eq_refl)
              eq_refl)
    as (st' & Hrun & _ & _ & HO).
  - vm_compute. intros Hc. discriminate Hc.
  - apply le_n.
  - exists st'. split; [rewrite Hrun; reflexivity | exact HO].
Defined.

Lemma new_pool_prefaulted_witness :
  4 * 4 <= U32.max /\
  slot_at 4 4 (new_pool 0 4 4) 7 = [0; 0; 0; 0] /\
  Z.of_nat (length (pool_data (new_pool 0 4 4))) = 4 * 4.
Proof.
  split; [exact sixteen_fits |].
  destruct (new_pool_prefaulted 4 4 0 four_in_range four_in_range four_valid 7
              sixteen_fits) as (_ & _ & Hlen & Hslot).
  split; [exact Hslot | exact Hlen].
Defined.

Lemma producer_runs_saturates_witness :
  wf Scenario.pool_attached /\
  writeIndex (producer_runs 4 4 6 Scenario.pool_attached) = 4 /\
  overflowCount (producer_runs 4 4 6 Scenario.pool_attached) = 2.
Proof.
  split; [exact pool_attached_wf |].
  destruct (producer_runs_saturates 4 4 four_in_range four_valid 6
              Scenario.pool_attached pool_attached_wf) as (HW & HO & _).
  - vm_compute. intros Hc. discriminate Hc.
  - vm_compute. intros Hc. discriminate Hc.
  - vm_compute. intros Hc. discriminate Hc.
  - split; [exact HW | exact HO].
Defined.

Lemma pool_abcd_storage : storage_ok 4 4 Scenario.pool_abcd.
Proof. vm_compute. reflexivity. Qed.

Lemma refused_write_keeps_older_witness :
  wf Scenario.pool_abcd /\
  writeIndex Scenario.pool_abcd - readIndex Scenario.pool_abcd = 4 /\
  slot_at 4 4 (fst (write_next 4 4 Scenario.rec_e Scenario.pool_abcd))
    (writeIndex Scenario.pool_abcd) = Scenario.rec_e /\
  option_map snd
    (drain 4 4 false 4 (fst (write_next 4 4 Scenario.rec_e Scenario.pool_abcd)) None) =
  option_map snd (drain 4 4 false 4 Scenario.pool_abcd None).
Proof.
  split; [exact pool_abcd_wf |]. split; [reflexivity |].
  destruct (refused_write_keeps_older 4 4 false four_in_range four_in_range
              four_valid 4 Scenario.rec_e Scenario.pool_abcd pool_abcd_wf
              eq_refl sixteen_fits pool_abcd_storage eq_refl)
    as (_ & _ & _ & _ & Hnew & _ & Hdrain).
  - vm_compute. intros Hc. discriminate Hc.
  - reflexivity.
  - split; [exact Hnew | apply Hdrain, le_n].
Defined.
